(** * annotated_meltdown.cpp: a shallow embedding of the covert-channel pipeline

    The program is a single C++ translation unit.  Its globals ([array_size],
    [array], [partitions], [temp]) become the fields of a [world] record that
    every function threads explicitly; fixed-width integers are [Z] with the
    wrap-around written out; the hardware (cache-line flushes, memory loads,
    the time-stamp counter) is observed through an event log kept in the
    world, and the time-stamp counter itself is an oracle [tsc] giving the
    value of its n-th reading. *)

From stdpp Require Import base list strings.
From Stdlib Require Import ZArith Lia.

Local Open Scope Z_scope.

(** ** Machine integers and constants *)

(** [uint8_t] / [unsigned char] *)
Definition wrap8 (z : Z) : Z := z mod 2 ^ 8.

(** [size_t] / [uint64_t] *)
Definition wrap64 (z : Z) : Z := z mod 2 ^ 64.

Definition PARTITION_SIZE : Z := 1024 * 4.
Definition ARRAY_SIZE : Z := 16.
Definition CACHE_HIT_THRESHOLD : Z := 80.
Definition TRAINING_RUNS : Z := 5.

(** ** Arrays of bytes *)

(** [a[i]] and [a[i] = v] on an array held as a list. *)
Definition rd (a : list Z) (i : Z) : Z := default 0 (a !! Z.to_nat i).
Definition wr (a : list Z) (i : Z) (v : Z) : list Z := <[Z.to_nat i := v]> a.

(** ** Counted loops *)

Fixpoint for_up {S : Type} (n : nat) (i : Z) (body : Z -> S -> S) (s : S) : S :=
  match n with
  | O => s
  | Datatypes.S n' => for_up n' (i + 1) body (body i s)
  end.

Fixpoint for_down {S : Type} (n : nat) (i : Z) (body : Z -> S -> S) (s : S) : S :=
  match n with
  | O => s
  | Datatypes.S n' => for_down n' (i - 1) body (body i s)
  end.

(** [for (i = lo; i < hi; i++) body] *)
Definition for_lt {S : Type} (lo hi : Z) (body : Z -> S -> S) (s : S) : S :=
  for_up (Z.to_nat (hi - lo)) lo body s.

(** [for (j = lo; j <= hi; j++) body] *)
Definition for_le {S : Type} (lo hi : Z) (body : Z -> S -> S) (s : S) : S :=
  for_up (Z.to_nat (hi + 1 - lo)) lo body s.

(** [for (i = hi; i > lo; i--) body] *)
Definition for_gt {S : Type} (hi lo : Z) (body : Z -> S -> S) (s : S) : S :=
  for_down (Z.to_nat (hi - lo)) hi body s.

(** ** The world: globals and the observable hardware events *)

Inductive event : Type :=
| Clflush_array_size              (* _mm_clflush(&array_size) *)
| Clflush_partitions (off : Z)    (* _mm_clflush(&partitions[off]) *)
| Load_array (x : Z)              (* array[x] *)
| Load_partitions (off : Z)       (* partitions[off] *)
| Store_temp                      (* temp = ... *)
| Rdtscp.                         (* __rdtscp(&junk) *)

Record world : Type := World {
  array_size : Z;          (* unsigned int array_size *)
  array : list Z;          (* uint8_t array[ARRAY_SIZE] *)
  partitions : Z -> Z;     (* uint8_t partitions[256 * PARTITION_SIZE] *)
  temp : Z;                (* uint8_t temp *)
  ticks : nat;             (* how many times __rdtscp has been executed *)
  log : list event         (* events so far, oldest first *)
}.

Definition emit (e : event) (w : world) : world :=
  World (array_size w) (array w) (partitions w) (temp w) (ticks w) (log w ++ [e]).

Definition set_temp (v : Z) (w : world) : world :=
  World (array_size w) (array w) (partitions w) v (ticks w) (log w).

Definition tick (w : world) : world :=
  World (array_size w) (array w) (partitions w) (temp w) (Datatypes.S (ticks w)) (log w).

Definition set_partitions (p : Z -> Z) (w : world) : world :=
  World (array_size w) (array w) p (temp w) (ticks w) (log w).

(** The globals as the translation unit initialises them. *)
Definition initial_array : list Z :=
  [1; 2; 3; 4; 5; 6; 7; 8; 9; 10; 11; 12; 13; 14; 15; 16].

Definition initial_world : world :=
  World ARRAY_SIZE initial_array (fun _ => 0) 0 0%nat [].

(** ** transmit_byte *)

Definition transmit_byte (x : Z) (w : world) : world :=
  let w := emit Clflush_array_size w in
  if x <? array_size w then
    let a := rd (array w) x in
    let w := emit (Load_array x) w in
    let off := a * PARTITION_SIZE in
    let p := partitions w off in
    let w := emit (Load_partitions off) w in
    emit Store_temp (set_temp (Z.land (temp w) p) w)
  else w.

(** ** flush_cache *)

Definition flush_cache (w : world) : world :=
  for_lt 0 256 (fun i w => emit (Clflush_partitions (i * PARTITION_SIZE)) w) w.


(** ** receive_bytes *)

Section Timing.

(** [tsc n] is what the n-th execution of [__rdtscp] returns. *)
Variable tsc : nat -> Z.

Definition rdtscp (w : world) : Z * world :=
  (wrap64 (tsc (ticks w)), emit Rdtscp (tick w)).

Definition receive_step (i : Z) (st : list Z * world) : list Z * world :=
  let '(aggregated_results, w) := st in
  let addr := i * PARTITION_SIZE in
  let '(initial_time, w) := rdtscp w in
  let w := emit (Load_partitions addr) w in
  let '(now, w) := rdtscp w in
  let read_time_duration := wrap64 (now - initial_time) in
  if read_time_duration <=? CACHE_HIT_THRESHOLD
  then (wr aggregated_results i (wrap8 (rd aggregated_results i + 1)), w)
  else (aggregated_results, w).

Definition receive_bytes (aggregated_results : list Z) (w : world)
  : list Z * world :=
  for_lt 0 256 receive_step (aggregated_results, w).

End Timing.

(** ** best_results *)

Record result : Type := Result {
  value : Z * Z;    (* uint8_t value[2] *)
  score : Z * Z     (* int score[2] *)
}.

Definition best_step (aggregated_results : list Z) (i : Z) (st : Z * Z) : Z * Z :=
  let '(best, second_best) := st in
  if (best <? 0) || (rd aggregated_results i >=? rd aggregated_results best)
  then (i, best)
  else if (second_best <? 0)
          || (rd aggregated_results i >=? rd aggregated_results second_best)
  then (best, i)
  else (best, second_best).

Definition best_results (aggregated_results : list Z) : result :=
  let '(best, second_best) :=
    for_lt 0 256 (best_step aggregated_results) (-1, -1) in
  Result (wrap8 best, wrap8 second_best)
         (rd aggregated_results best, rd aggregated_results second_best).

(** ** train_and_transmit *)

(** [for (volatile int z = 0; z < 100; z++) {}] *)
Definition delay (w : world) : world := for_lt 0 100 (fun _ w => w) w.

(** The three assignments to [x]; the first right-hand side is an [int]
    converted to [size_t]. *)
Definition select_x (j training_x malicious_x : Z) : Z :=
  let x := wrap64 (Z.land (Z.rem j (TRAINING_RUNS + 1) - 1) (Z.lnot 65535)) in
  let x := Z.lor x (Z.shiftr x 16) in
  Z.lxor training_x (Z.land x (Z.lxor malicious_x training_x)).

Definition train_step (training_x malicious_x : Z) (j : Z) (w : world) : world :=
  let w := delay w in
  transmit_byte (select_x j training_x malicious_x) w.

Definition train_and_transmit (training_x malicious_x : Z) (w : world) : world :=
  for_le 0 (TRAINING_RUNS * 6) (train_step training_x malicious_x) w.

(** ** transmit_and_receive and main *)

Record report : Type := Report {
  address : Z;                   (* %p *)
  verdict : string;              (* %s *)
  best_value : Z;                (* 0x%02X *)
  best_char : Z;                 (* '%c' *)
  best_score : Z;                (* score=%d *)
  second_best : option (Z * Z)   (* (second best: 0x%02X score=%d) *)
}.

Definition print_result (malicious_x : Z) (r : result) : report :=
  Report malicious_x
         (if (score r).1 >=? 2 * (score r).2 then "Success" else "Unclear")
         (value r).1
         (if (31 <? (value r).1) && ((value r).1 <? 127) then (value r).1 else 63)
         (score r).1
         (if 0 <? (score r).2 then Some ((value r).2, (score r).2) else None).

Section Session.

(** [uninit i] is the byte found at index [i] of an uninitialised local
    array. *)
Variable tsc : nat -> Z.
Variable uninit : Z -> Z.

Definition trial (malicious_x : Z) (tries : Z) (st : list Z * world)
  : list Z * world :=
  let '(aggregated_results, w) := st in
  let w := flush_cache w in
  let w := train_and_transmit (Z.rem tries ARRAY_SIZE) malicious_x w in
  receive_bytes tsc aggregated_results w.

(** [unsigned char aggregated_results[256];] followed by the loop that
    clears it. *)
Definition fresh_table : list Z :=
  for_lt 0 256 (fun i a => wr a i 0) ((fun i => wrap8 (uninit i)) <$> seqZ 0 256).

Definition transmit_and_receive (malicious_x : Z) (w : world) : result * world :=
  let aggregated_results := fresh_table in
  let '(aggregated_results, w) :=
    for_gt 99 0 (trial malicious_x) (aggregated_results, w) in
  (best_results aggregated_results, w).

Definition main_step (malicious_x : Z) (i : Z) (st : list report * world)
  : list report * world :=
  let '(out, w) := st in
  let '(r, w) := transmit_and_receive (wrap64 (malicious_x + i)) w in
  (out ++ [print_result malicious_x r], w).

(** [malicious_x] is [secret - (char* )array] and [len] is [strlen(secret)]. *)
Definition main (malicious_x len : Z) (w : world) : list report * world :=
  let w :=
    set_partitions
      (fun off => if (0 <=? off) && (off <? 256 * PARTITION_SIZE)
                  then 1 else partitions w off) w in
  for_lt 0 len (main_step malicious_x) ([], w).

(** The decode session after its first [n] trials. *)
Definition session_after (n : nat) (malicious_x : Z) (w : world)
  : list Z * world :=
  for_down n 99 (trial malicious_x) (fresh_table, w).

(** The elapsed time measured for partition [i] by a call of
    [receive_bytes] that starts after [c] executions of [__rdtscp]. *)
Definition elapsed (c : nat) (i : Z) : Z :=
  wrap64 (wrap64 (tsc (c + 2 * Z.to_nat i + 1)%nat)
          - wrap64 (tsc (c + 2 * Z.to_nat i)%nat)).

End Session.

(** ** Event lists of the pipeline stages *)

Definition transmit_events (w : world) (x : Z) : list event :=
  Clflush_array_size ::
    (if x <? array_size w
     then [Load_array x; Load_partitions (rd (array w) x * PARTITION_SIZE); Store_temp]
     else []).

Definition flush_events : list event :=
  (fun i => Clflush_partitions (i * PARTITION_SIZE)) <$> seqZ 0 256.

Definition receive_events : list event :=
  seqZ 0 256 ≫= fun i => [Rdtscp; Load_partitions (i * PARTITION_SIZE); Rdtscp].

Definition train_events (w : world) (training_x malicious_x : Z) : list event :=
  seqZ 0 (TRAINING_RUNS * 6 + 1) ≫=
    fun j => transmit_events w (select_x j training_x malicious_x).

Definition trial_events (w : world) (malicious_x tries : Z) : list event :=
  flush_events ++ train_events w (Z.rem tries ARRAY_SIZE) malicious_x ++ receive_events.

(** ** Specification-side notions *)

(** The selection of [train_and_transmit] written with a conditional. *)
Definition select_by_branch (j training_x malicious_x : Z) : Z :=
  if Z.rem j 6 =? 0 then malicious_x else training_x.

(** Every call of [transmit_byte] flushes [array_size] exactly once, so the
    number of these flushes in a log counts the calls. *)
Definition is_bound_flush (e : event) : bool :=
  match e with
  | Clflush_array_size => true
  | _ => false
  end.

Definition invocations (es : list event) : nat :=
  length (List.filter is_bound_flush es).

(** A counter table: 256 bytes. *)
Definition is_table (a : list Z) : Prop :=
  length a = 256%nat /\ forall i, 0 <= i < 256 -> 0 <= rd a i < 256.

(** [b] is the last index below [n] satisfying [P] whose counter is maximal
    among the indices below [n] satisfying [P]. *)
Definition last_max (a : list Z) (n : Z) (P : Z -> Prop) (b : Z) : Prop :=
  0 <= b < n /\ P b /\
  (forall j, 0 <= j < n -> P j -> rd a j <= rd a b) /\
  (forall j, b < j < n -> P j -> rd a j < rd a b).

(** The invariant of the scan in [best_results] after [n] iterations. *)
Definition scanned (a : list Z) (n : nat) (st : Z * Z) : Prop :=
  match n with
  | O => st = (-1, -1)
  | Datatypes.S O => st = (0, -1)
  | _ => last_max a (Z.of_nat n) (fun _ => True) st.1 /\
         last_max a (Z.of_nat n) (fun j => j <> st.1) st.2
  end.

(** Sample inputs. *)
Definition tie_table : list Z := wr (wr (replicate 256 0) 3 5) 7 5.

Definition saturated_table : list Z := replicate 256 255.

(** A simulated time-stamp counter under which partition [k], and only it,
    is read within the threshold. *)
Definition sim_tsc (k : Z) (n : nat) : Z :=
  if Nat.even n then 1000
  else if Z.of_nat (n / 2) mod 256 =? k then 1040 else 1300.

(** What a call appends to the log. *)
Definition events_since (w w' : world) : list event :=
  drop (length (log w)) (log w').

Definition is_load (e : event) : bool :=
  match e with
  | Load_array _ | Load_partitions _ => true
  | _ => false
  end.

Definition is_store (e : event) : bool :=
  match e with
  | Store_temp => true
  | _ => false
  end.

(** [w'] is reached from [w] by code that leaves [array_size], [array] and
    [partitions] alone, executes [__rdtscp] [ticked] times and appends [es]
    to the log. *)
Definition same_globals (w w' : world) : Prop :=
  array_size w' = array_size w /\ array w' = array w /\ partitions w' = partitions w.

Definition extends (w w' : world) (ticked : nat) (es : list event) : Prop :=
  same_globals w w' /\ ticks w' = (ticks w + ticked)%nat /\ log w' = log w ++ es.

(** ** Notions for the pipeline as a whole *)

(** An array of bytes. *)
Definition bytes (a : list Z) : Prop := Forall (fun b => 0 <= b < 256) a.

(** An access that stays inside the arrays of [w]: [array] is indexed below
    [array_size], [partitions] at the first byte of one of its 256
    partitions. *)
Definition in_bounds (w : world) (e : event) : Prop :=
  match e with
  | Load_array i => 0 <= i < array_size w
  | Load_partitions off | Clflush_partitions off =>
      0 <= off < 256 * PARTITION_SIZE /\ off mod PARTITION_SIZE = 0
  | _ => True
  end.

Definition is_array_load (e : event) : bool :=
  match e with
  | Load_array _ => true
  | _ => false
  end.

Definition is_partitions_load (e : event) : bool :=
  match e with
  | Load_partitions _ => true
  | _ => false
  end.

Definition is_rdtscp (e : event) : bool :=
  match e with
  | Rdtscp => true
  | _ => false
  end.



(** ** Loops *)

Lemma for_up_snoc {S : Type} n i (body : Z -> S -> S) s :
  for_up (Datatypes.S n) i body s = body (i + Z.of_nat n) (for_up n i body s).
Proof.
  revert i s. induction n as [|n IH]; intros i s.
  - cbn. by rewrite Z.add_0_r.
  - change (for_up (Datatypes.S (Datatypes.S n)) i body s)
      with (for_up (Datatypes.S n) (i + 1) body (body i s)).
    rewrite IH. cbn [for_up]. f_equal. lia.
Qed.

Lemma for_down_snoc {S : Type} n i (body : Z -> S -> S) s :
  for_down (Datatypes.S n) i body s = body (i - Z.of_nat n) (for_down n i body s).
Proof.
  revert i s. induction n as [|n IH]; intros i s.
  - cbn. by rewrite Z.sub_0_r.
  - change (for_down (Datatypes.S (Datatypes.S n)) i body s)
      with (for_down (Datatypes.S n) (i - 1) body (body i s)).
    rewrite IH. cbn [for_down]. f_equal. lia.
Qed.

Lemma seqZ_snoc m (n : nat) :
  seqZ m (Z.of_nat (Datatypes.S n)) = seqZ m (Z.of_nat n) ++ [m + Z.of_nat n].
Proof.
  replace (Z.of_nat (Datatypes.S n)) with (Z.of_nat n + 1) by lia.
  rewrite seqZ_app by lia. reflexivity.
Qed.

(** ** Frame facts *)

Lemma same_globals_refl w : same_globals w w.
Proof. by repeat split. Qed.

Lemma same_globals_trans w1 w2 w3 :
  same_globals w1 w2 -> same_globals w2 w3 -> same_globals w1 w3.
Proof. unfold same_globals. intros (-> & -> & ->) (-> & -> & ->). auto. Qed.

Lemma extends_refl w : extends w w 0 [].
Proof.
  split; [apply same_globals_refl|]. split; [lia|]. by rewrite app_nil_r.
Qed.

Lemma extends_trans w1 w2 w3 t1 t2 es1 es2 :
  extends w1 w2 t1 es1 -> extends w2 w3 t2 es2 ->
  extends w1 w3 (t1 + t2) (es1 ++ es2).
Proof.
  intros (G1 & T1 & L1) (G2 & T2 & L2). split; [|split].
  - eapply same_globals_trans; eauto.
  - lia.
  - by rewrite L2, L1, app_assoc.
Qed.

Lemma extends_emit e w : extends w (emit e w) 0 [e].
Proof. split; [by repeat split|]. split; [cbn; lia|reflexivity]. Qed.

Lemma extends_same w w' t es : extends w w' t es -> same_globals w w'.
Proof. by intros (G & _). Qed.

(** Every loop of the program whose body extends the world extends it by the
    concatenation of what the iterations append; [proj] picks the world out
    of the loop state. *)
Lemma for_up_extends {S : Type} (proj : S -> world) (body : Z -> S -> S)
    (ev : Z -> list event) (tk : nat) (w0 : world) :
  (forall j s, same_globals w0 (proj s) ->
               extends (proj s) (proj (body j s)) tk (ev j)) ->
  forall n i s, same_globals w0 (proj s) ->
    extends (proj s) (proj (for_up n i body s)) (n * tk)
            (seqZ i (Z.of_nat n) ≫= ev).
Proof.
  intros Hbody. induction n as [|n IH]; intros i s Hs.
  - cbn. apply extends_refl.
  - rewrite for_up_snoc, seqZ_snoc, bind_app. cbn [mbind list_bind].
    rewrite app_nil_r.
    replace (Datatypes.S n * tk)%nat with (n * tk + tk)%nat by lia.
    eapply extends_trans; [apply IH, Hs|].
    apply Hbody. eapply same_globals_trans; [exact Hs|].
    eapply extends_same, IH, Hs.
Qed.

Lemma log_emit e w : log (emit e w) = log w ++ [e].
Proof. reflexivity. Qed.

Lemma events_since_app w w' es : log w' = log w ++ es -> events_since w w' = es.
Proof. intros H. unfold events_since. by rewrite H, drop_app_length. Qed.

Lemma transmit_byte_log x w :
  log (transmit_byte x w) = log w ++ transmit_events w x.
Proof.
  unfold transmit_byte, transmit_events.
  cbn [emit array_size array partitions temp log set_temp].
  destruct (x <? array_size w); cbn [log emit set_temp];
    rewrite <- ?app_assoc; reflexivity.
Qed.


Lemma for_up_foldl {S : Type} n i (body : Z -> S -> S) s :
  for_up n i body s = foldl (fun s j => body j s) s (seqZ i (Z.of_nat n)).
Proof.
  revert i s. induction n as [|n IH]; intros i s; [reflexivity|].
  rewrite seqZ_cons by lia. cbn [for_up foldl]. rewrite IH.
  replace (Z.pred (Z.of_nat (Datatypes.S n))) with (Z.of_nat n) by lia.
  reflexivity.
Qed.

(** ** transmit_byte, flush_cache, train_and_transmit *)

Lemma transmit_events_same w w' x :
  same_globals w w' -> transmit_events w' x = transmit_events w x.
Proof. intros (E1 & E2 & _). unfold transmit_events. by rewrite E1, E2. Qed.

Lemma transmit_byte_extends x w :
  extends w (transmit_byte x w) 0 (transmit_events w x).
Proof.
  split; [|split; [|apply transmit_byte_log]];
    unfold transmit_byte; cbn [emit array_size];
    destruct (x <? array_size w); cbn; try lia; by repeat split.
Qed.

Lemma flush_cache_extends w : extends w (flush_cache w) 0 flush_events.
Proof.
  unfold flush_cache, for_lt, flush_events.
  pose proof (for_up_extends (fun w => w)
    (fun i w => emit (Clflush_partitions (i * PARTITION_SIZE)) w)
    (fun i => [Clflush_partitions (i * PARTITION_SIZE)]) 0 w
    (fun j s _ => extends_emit _ s) (Z.to_nat (256 - 0)) 0 w
    (same_globals_refl w)) as H.
  rewrite Nat.mul_0_r in H.
  replace (seqZ 0 (Z.of_nat (Z.to_nat (256 - 0))) ≫=
             (fun i => [Clflush_partitions (i * PARTITION_SIZE)]))
    with ((fun i => Clflush_partitions (i * PARTITION_SIZE)) <$> seqZ 0 256) in H
    by reflexivity.
  exact H.
Qed.

Lemma delay_id w : delay w = w.
Proof. reflexivity. Qed.

Lemma train_and_transmit_extends training_x malicious_x w :
  extends w (train_and_transmit training_x malicious_x w) 0
          (train_events w training_x malicious_x).
Proof.
  unfold train_and_transmit, for_le, train_events.
  pose proof (for_up_extends (fun w => w) (train_step training_x malicious_x)
    (fun j => transmit_events w (select_x j training_x malicious_x)) 0 w) as H.
  specialize (H (fun j s Hs =>
    eq_rect_r (extends s (transmit_byte (select_x j training_x malicious_x) s) 0)
              (transmit_byte_extends _ s) (eq_sym (transmit_events_same _ _ _ Hs)))).
  specialize (H (Z.to_nat (TRAINING_RUNS * 6 + 1 - 0)) 0 w (same_globals_refl w)).
  rewrite Nat.mul_0_r in H. exact H.
Qed.

(** ** The branchless selection *)

Lemma land_ones64 (a : Z) : 0 <= a < 2 ^ 64 -> Z.land a (Z.ones 64) = a.
Proof. intros H. rewrite Z.land_ones by lia. by apply Z.mod_small. Qed.

Lemma lxor_bound64 (a b : Z) :
  0 <= a < 2 ^ 64 -> 0 <= b < 2 ^ 64 -> 0 <= Z.lxor a b < 2 ^ 64.
Proof.
  intros Ha Hb.
  assert (Z.lxor a b = Z.lxor a b mod 2 ^ 64) as ->.
  { apply Z.bits_inj'. intros n Hn. destruct (Z.lt_ge_cases n 64).
    - by rewrite Z.mod_pow2_bits_low by lia.
    - rewrite Z.mod_pow2_bits_high by lia. rewrite Z.lxor_spec.
      rewrite <- (Z.mod_small a (2 ^ 64)), <- (Z.mod_small b (2 ^ 64)) by lia.
      by rewrite !Z.mod_pow2_bits_high by lia. }
  apply Z.mod_pos_bound. lia.
Qed.

Lemma select_x_spec j training_x malicious_x :
  0 <= j -> 0 <= training_x < 2 ^ 64 -> 0 <= malicious_x < 2 ^ 64 ->
  select_x j training_x malicious_x =
  if Z.rem j 6 =? 0 then malicious_x else training_x.
Proof.
  intros Hj Ht Hm. unfold select_x, TRAINING_RUNS.
  change (5 + 1) with 6.
  pose proof (Z.rem_bound_pos j 6 Hj ltac:(lia)) as Hr.
  assert (Z.rem j 6 = 0 \/ Z.rem j 6 = 1 \/ Z.rem j 6 = 2 \/ Z.rem j 6 = 3 \/
          Z.rem j 6 = 4 \/ Z.rem j 6 = 5) as Hcases by lia.
  destruct Hcases as [E|[E|[E|[E|[E|E]]]]]; rewrite E.
  - change (Z.lor (wrap64 (Z.land (0 - 1) (Z.lnot 65535)))
                  (Z.shiftr (wrap64 (Z.land (0 - 1) (Z.lnot 65535))) 16))
      with (Z.ones 64).
    rewrite Z.land_comm, land_ones64 by (by apply lxor_bound64).
    rewrite (Z.lxor_comm malicious_x), <- Z.lxor_assoc, Z.lxor_nilpotent.
    apply Z.lxor_0_l.
  - cbn. apply Z.lxor_0_r.
  - cbn. apply Z.lxor_0_r.
  - cbn. apply Z.lxor_0_r.
  - cbn. apply Z.lxor_0_r.
  - cbn. apply Z.lxor_0_r.
Qed.

Lemma invocations_app es1 es2 :
  invocations (es1 ++ es2) = (invocations es1 + invocations es2)%nat.
Proof. unfold invocations. by rewrite List.filter_app, length_app. Qed.

Lemma invocations_transmit w x : invocations (transmit_events w x) = 1%nat.
Proof. unfold transmit_events. by destruct (x <? array_size w). Qed.

Lemma invocations_bind (l : list Z) (f : Z -> list event) :
  (forall j, invocations (f j) = 1%nat) -> invocations (l ≫= f) = length l.
Proof.
  intros Hf. induction l as [|j l IH]; [reflexivity|].
  cbn [mbind list_bind]. rewrite invocations_app, Hf.
  cbn [length]. f_equal. exact IH.
Qed.

(** ** Arrays *)

Lemma length_wr a i v : length (wr a i v) = length a.
Proof. apply length_insert. Qed.

Lemma rd_wr_eq a i v : 0 <= i -> (Z.to_nat i < length a)%nat -> rd (wr a i v) i = v.
Proof. intros Hi Hlen. unfold rd, wr. by rewrite list_lookup_insert_eq. Qed.

Lemma rd_wr_ne a i j v : 0 <= i -> 0 <= j -> i <> j -> rd (wr a i v) j = rd a j.
Proof.
  intros Hi Hj Hne. unfold rd, wr. rewrite list_lookup_insert_ne; [done|lia].
Qed.

Lemma rd_replicate n v i : 0 <= i -> (Z.to_nat i < n)%nat -> rd (replicate n v) i = v.
Proof. intros Hi Hlt. unfold rd. by rewrite lookup_replicate_2. Qed.

(** ** receive_bytes *)

Lemma receive_step_eq tsc i agg w :
  receive_step tsc i (agg, w) =
  (if wrap64 (wrap64 (tsc (Datatypes.S (ticks w))) - wrap64 (tsc (ticks w)))
      <=? CACHE_HIT_THRESHOLD
   then wr agg i (wrap8 (rd agg i + 1)) else agg,
   emit Rdtscp (tick (emit (Load_partitions (i * PARTITION_SIZE))
                           (emit Rdtscp (tick w))))).
Proof.
  unfold receive_step, rdtscp. cbn [emit tick ticks].
  by destruct (_ <=? _).
Qed.

Lemma receive_step_extends tsc i (s : list Z * world) :
  extends s.2 (receive_step tsc i s).2 2
          [Rdtscp; Load_partitions (i * PARTITION_SIZE); Rdtscp].
Proof.
  destruct s as [agg w]. rewrite receive_step_eq. cbn [snd].
  split; [by repeat split|]. split; [cbn; lia|].
  cbn. by rewrite <- !app_assoc.
Qed.

Lemma receive_loop_extends tsc agg w n :
  extends w (for_up n 0 (receive_step tsc) (agg, w)).2 (n * 2)
          (seqZ 0 (Z.of_nat n) ≫=
             fun i => [Rdtscp; Load_partitions (i * PARTITION_SIZE); Rdtscp]).
Proof.
  apply (for_up_extends snd (receive_step tsc)
           (fun i => [Rdtscp; Load_partitions (i * PARTITION_SIZE); Rdtscp]) 2 w
           (fun j s _ => receive_step_extends tsc j s) n 0 (agg, w)
           (same_globals_refl w)).
Qed.

Lemma receive_loop_table tsc agg w n :
  (n <= 256)%nat -> length agg = 256%nat ->
  length (for_up n 0 (receive_step tsc) (agg, w)).1 = 256%nat /\
  forall i, 0 <= i < 256 ->
    rd (for_up n 0 (receive_step tsc) (agg, w)).1 i =
    if (i <? Z.of_nat n) && (elapsed tsc (ticks w) i <=? CACHE_HIT_THRESHOLD)
    then wrap8 (rd agg i + 1) else rd agg i.
Proof.
  intros Hn Hlen. induction n as [|n IH].
  - cbn [for_up fst]. change (Z.of_nat 0) with 0. split; [done|]. intros i Hi.
    destruct (Z.ltb_spec i 0); [lia|done].
  - destruct IH as [IHlen IHrd]; [lia|].
    pose proof (receive_loop_extends tsc agg w n) as (_ & Hticks & _).
    rewrite for_up_snoc.
    destruct (for_up n 0 (receive_step tsc) (agg, w)) as [a' w'].
    cbn [fst snd] in *. rewrite receive_step_eq. cbn [fst].
    replace (wrap64 (wrap64 (tsc (Datatypes.S (ticks w'))) - wrap64 (tsc (ticks w'))))
      with (elapsed tsc (ticks w) (0 + Z.of_nat n)).
    2:{ unfold elapsed. rewrite Hticks.
        replace (ticks w + 2 * Z.to_nat (0 + Z.of_nat n) + 1)%nat
          with (Datatypes.S (ticks w + n * 2)) by lia.
        replace (ticks w + 2 * Z.to_nat (0 + Z.of_nat n))%nat
          with (ticks w + n * 2)%nat by lia.
        reflexivity. }
    split.
    + destruct (_ <=? _); [by rewrite length_wr|done].
    + intros i Hi. specialize (IHrd i Hi).
      destruct (Z.eq_dec i (0 + Z.of_nat n)) as [->|Hne].
      * destruct (Z.ltb_spec (0 + Z.of_nat n) (Z.of_nat n)); [lia|].
        destruct (Z.ltb_spec (0 + Z.of_nat n) (Z.of_nat (Datatypes.S n))); [|lia].
        cbn [andb] in *.
        destruct (_ <=? _); [|done].
        rewrite rd_wr_eq by lia. by rewrite IHrd.
      * assert ((i <? Z.of_nat (Datatypes.S n)) = (i <? Z.of_nat n)) as ->.
        { destruct (Z.ltb_spec i (Z.of_nat n)), (Z.ltb_spec i (Z.of_nat (Datatypes.S n)));
            (done || lia). }
        rewrite <- IHrd.
        destruct (elapsed tsc (ticks w) (0 + Z.of_nat n) <=? CACHE_HIT_THRESHOLD);
          [|done].
        apply rd_wr_ne; lia.
Qed.

Lemma receive_bytes_extends tsc agg w :
  extends w (receive_bytes tsc agg w).2 512 receive_events.
Proof. apply (receive_loop_extends tsc agg w 256). Qed.

Lemma receive_bytes_table tsc agg w :
  length agg = 256%nat ->
  length (receive_bytes tsc agg w).1 = 256%nat /\
  forall i, 0 <= i < 256 ->
    rd (receive_bytes tsc agg w).1 i =
    if elapsed tsc (ticks w) i <=? CACHE_HIT_THRESHOLD
    then wrap8 (rd agg i + 1) else rd agg i.
Proof.
  intros Hlen.
  destruct (receive_loop_table tsc agg w 256 ltac:(lia) Hlen) as [Hl Hrd].
  split; [exact Hl|]. intros i Hi. unfold receive_bytes, for_lt.
  change (Z.to_nat (256 - 0)) with 256%nat. rewrite (Hrd i Hi).
  change (Z.of_nat 256) with 256.
  destruct (Z.ltb_spec i 256); [done|lia].
Qed.

Lemma wrap8_bound z : 0 <= wrap8 z < 256.
Proof. unfold wrap8. apply Z.mod_pos_bound. lia. Qed.

Lemma wrap8_small z : 0 <= z < 256 -> wrap8 z = z.
Proof. intros H. unfold wrap8. by apply Z.mod_small. Qed.

Lemma receive_bytes_is_table tsc agg w :
  is_table agg -> is_table (receive_bytes tsc agg w).1.
Proof.
  intros [Hlen Hby]. destruct (receive_bytes_table tsc agg w Hlen) as [Hl Hrd].
  split; [exact Hl|]. intros i Hi. rewrite (Hrd i Hi).
  destruct (_ <=? _); [apply wrap8_bound|by apply Hby].
Qed.

(** ** best_results *)

Lemma scanned_ge2 a n st :
  (2 <= n)%nat ->
  scanned a n st <->
  last_max a (Z.of_nat n) (fun _ => True) st.1 /\
  last_max a (Z.of_nat n) (fun j => j <> st.1) st.2.
Proof. destruct n as [|[|n]]; [lia|lia|reflexivity]. Qed.

Ltac at_index j :=
  repeat match goal with
         | H : forall k : Z, _ |- _ => specialize (H j)
         end.

Ltac max_cases N :=
  unfold last_max; cbn [fst snd]; repeat split; try lia;
  intros j Hj HP; destruct (Z.eq_dec j N) as [->|?]; at_index j; lia.

Lemma best_step_scanned a n st :
  scanned a n st -> scanned a (Datatypes.S n) (best_step a (Z.of_nat n) st).
Proof.
  destruct n as [|[|m]].
  - intros ->. reflexivity.
  - intros ->. rewrite scanned_ge2 by lia. unfold best_step.
    change (Z.of_nat 1) with 1. change (Z.of_nat 2) with 2.
    change (0 <? 0) with false. change (-1 <? 0) with true. cbn [orb].
    destruct (Z.geb_spec (rd a 1) (rd a 0)); cbn [fst snd];
      (split; unfold last_max; repeat split; try lia; intros j Hj HP;
       assert (j = 0 \/ j = 1) as [-> | ->] by lia; lia).
  - remember (Datatypes.S (Datatypes.S m)) as N eqn:HN.
    rewrite !scanned_ge2 by lia. destruct st as [best second]. cbn [fst snd].
    intros [(Hb0 & _ & Hb1 & Hb2) (Hs0 & Hs1 & Hs2 & Hs3)].
    unfold best_step.
    destruct (Z.ltb_spec best 0); [lia|]. cbn [orb].
    destruct (Z.geb_spec (rd a (Z.of_nat N)) (rd a best)).
    + split; max_cases (Z.of_nat N).
    + destruct (Z.ltb_spec second 0); [lia|]. cbn [orb].
      destruct (Z.geb_spec (rd a (Z.of_nat N)) (rd a second));
        split; max_cases (Z.of_nat N).
Qed.

Lemma best_scan a n : scanned a n (for_up n 0 (best_step a) (-1, -1)).
Proof.
  induction n as [|n IH]; [reflexivity|].
  rewrite for_up_snoc, Z.add_0_l. by apply best_step_scanned.
Qed.

Lemma best_results_value a :
  value (best_results a) = for_lt 0 256 (best_step a) (-1, -1).
Proof.
  unfold best_results, for_lt. change (Z.to_nat (256 - 0)) with 256%nat.
  pose proof (best_scan a 256) as H. rewrite scanned_ge2 in H by lia.
  change (Z.of_nat 256) with 256 in H.
  destruct (for_up 256 0 (best_step a) (-1, -1)) as [b s].
  cbn [fst snd value] in *. destruct H as [(Hb & _) (Hs & _)].
  by rewrite !wrap8_small by lia.
Qed.

Lemma best_results_last_max a :
  last_max a 256 (fun _ => True) (value (best_results a)).1 /\
  last_max a 256 (fun j => j <> (value (best_results a)).1) (value (best_results a)).2 /\
  score (best_results a) =
    (rd a (value (best_results a)).1, rd a (value (best_results a)).2).
Proof.
  unfold best_results, for_lt. change (Z.to_nat (256 - 0)) with 256%nat.
  pose proof (best_scan a 256) as H. rewrite scanned_ge2 in H by lia.
  change (Z.of_nat 256) with 256 in H.
  destruct (for_up 256 0 (best_step a) (-1, -1)) as [b s].
  cbn [fst snd value score] in *. destruct H as [Hb Hs].
  rewrite !wrap8_small; [done| |].
  - destruct Hs as (? & _). lia.
  - destruct Hb as (? & _). lia.
Qed.

(** ** The decode session *)

Lemma fresh_table_zero uninit : fresh_table uninit = replicate 256 0.
Proof. reflexivity. Qed.

Lemma train_events_same w w' training_x malicious_x :
  same_globals w w' ->
  train_events w' training_x malicious_x = train_events w training_x malicious_x.
Proof.
  intros (E1 & E2 & _). unfold train_events, transmit_events. by rewrite E1, E2.
Qed.

Lemma trial_events_same w w' malicious_x tries :
  same_globals w w' ->
  trial_events w' malicious_x tries = trial_events w malicious_x tries.
Proof. intros H. unfold trial_events. by rewrite (train_events_same w w'). Qed.

Lemma trial_extends tsc malicious_x tries (s : list Z * world) :
  extends s.2 (trial tsc malicious_x tries s).2 512
          (trial_events s.2 malicious_x tries).
Proof.
  destruct s as [agg w]. unfold trial, trial_events. cbn [snd].
  pose proof (flush_cache_extends w) as Hf.
  pose proof (train_and_transmit_extends (Z.rem tries ARRAY_SIZE) malicious_x
                (flush_cache w)) as Ht.
  rewrite (train_events_same w) in Ht by (eapply extends_same, Hf).
  pose proof (receive_bytes_extends tsc agg
    (train_and_transmit (Z.rem tries ARRAY_SIZE) malicious_x (flush_cache w))) as Hr.
  exact (extends_trans _ _ _ _ _ _ _ Hf (extends_trans _ _ _ _ _ _ _ Ht Hr)).
Qed.

Lemma trial_table tsc malicious_x tries agg w :
  length agg = 256%nat ->
  length (trial tsc malicious_x tries (agg, w)).1 = 256%nat /\
  forall i, 0 <= i < 256 ->
    rd (trial tsc malicious_x tries (agg, w)).1 i =
    if elapsed tsc (ticks w) i <=? CACHE_HIT_THRESHOLD
    then wrap8 (rd agg i + 1) else rd agg i.
Proof.
  intros Hlen. unfold trial.
  pose proof (flush_cache_extends w) as (_ & Hf & _).
  pose proof (train_and_transmit_extends (Z.rem tries ARRAY_SIZE) malicious_x
                (flush_cache w)) as (_ & Ht & _).
  set (w' := train_and_transmit _ _ _) in *.
  assert (ticks w' = ticks w) as Hticks by lia.
  rewrite <- Hticks. by apply receive_bytes_table.
Qed.

Lemma session_after_S tsc uninit n malicious_x w :
  session_after tsc uninit (Datatypes.S n) malicious_x w =
  trial tsc malicious_x (99 - Z.of_nat n) (session_after tsc uninit n malicious_x w).
Proof. apply for_down_snoc. Qed.

Lemma session_extends tsc uninit malicious_x w n :
  extends w (session_after tsc uninit n malicious_x w).2 (n * 512)
          (seqZ 0 (Z.of_nat n) ≫= fun t => trial_events w malicious_x (99 - t)).
Proof.
  induction n as [|n IH]; [apply extends_refl|].
  rewrite session_after_S, seqZ_snoc, bind_app. cbn [mbind list_bind].
  rewrite app_nil_r, Z.add_0_l.
  replace (Datatypes.S n * 512)%nat with (n * 512 + 512)%nat by lia.
  eapply extends_trans; [exact IH|].
  rewrite <- (trial_events_same w (session_after tsc uninit n malicious_x w).2)
    by (eapply extends_same, IH).
  apply trial_extends.
Qed.

Lemma session_length tsc uninit malicious_x w n :
  length (session_after tsc uninit n malicious_x w).1 = 256%nat.
Proof.
  induction n as [|n IH]; [reflexivity|].
  rewrite session_after_S.
  destruct (session_after tsc uninit n malicious_x w) as [agg w'].
  by apply trial_table.
Qed.

Lemma session_step tsc uninit malicious_x w n i :
  0 <= i < 256 ->
  rd (session_after tsc uninit (Datatypes.S n) malicious_x w).1 i =
  if elapsed tsc (ticks w + 512 * n) i <=? CACHE_HIT_THRESHOLD
  then wrap8 (rd (session_after tsc uninit n malicious_x w).1 i + 1)
  else rd (session_after tsc uninit n malicious_x w).1 i.
Proof.
  intros Hi. rewrite session_after_S.
  pose proof (session_extends tsc uninit malicious_x w n) as (_ & Hticks & _).
  pose proof (session_length tsc uninit malicious_x w n) as Hlen.
  destruct (session_after tsc uninit n malicious_x w) as [agg w'].
  cbn [fst snd] in *.
  destruct (trial_table tsc malicious_x (99 - Z.of_nat n) agg w' Hlen) as [_ Hrd].
  rewrite (Hrd i Hi), Hticks. by rewrite (Nat.mul_comm n 512).
Qed.

Lemma session_bound tsc uninit malicious_x w n i :
  (n <= 255)%nat -> 0 <= i < 256 ->
  0 <= rd (session_after tsc uninit n malicious_x w).1 i <= Z.of_nat n.
Proof.
  intros Hn Hi. induction n as [|n IH].
  - unfold session_after. cbn [for_down fst]. rewrite fresh_table_zero.
    rewrite rd_replicate by lia. lia.
  - rewrite session_step by done. specialize (IH ltac:(lia)).
    destruct (_ <=? _); [|lia]. rewrite wrap8_small; lia.
Qed.

Lemma session_mono_step tsc uninit malicious_x w n i :
  (n < 255)%nat -> 0 <= i < 256 ->
  rd (session_after tsc uninit n malicious_x w).1 i
  <= rd (session_after tsc uninit (Datatypes.S n) malicious_x w).1 i
  <= rd (session_after tsc uninit n malicious_x w).1 i + 1.
Proof.
  intros Hn Hi. rewrite session_step by done.
  pose proof (session_bound tsc uninit malicious_x w n i ltac:(lia) Hi).
  destruct (_ <=? _); [|lia]. rewrite wrap8_small; lia.
Qed.

Lemma session_signal tsc uninit malicious_x w k n i :
  (forall t j, (t < 99)%nat -> 0 <= j < 256 ->
     (elapsed tsc (ticks w + 512 * t) j <= CACHE_HIT_THRESHOLD <-> j = k)) ->
  (n <= 99)%nat -> 0 <= i < 256 ->
  rd (session_after tsc uninit n malicious_x w).1 i = if i =? k then Z.of_nat n else 0.
Proof.
  intros Hsim Hn Hi. induction n as [|n IH].
  - unfold session_after. cbn [for_down fst]. rewrite fresh_table_zero.
    rewrite rd_replicate by lia. by destruct (i =? k).
  - rewrite session_step by done. rewrite IH by lia.
    specialize (Hsim n i ltac:(lia) Hi).
    destruct (Z.leb_spec (elapsed tsc (ticks w + 512 * n) i) CACHE_HIT_THRESHOLD),
             (Z.eqb_spec i k); try lia.
    rewrite wrap8_small; lia.
Qed.

Lemma transmit_and_receive_eq tsc uninit malicious_x w :
  transmit_and_receive tsc uninit malicious_x w =
  (best_results (session_after tsc uninit 99 malicious_x w).1,
   (session_after tsc uninit 99 malicious_x w).2).
Proof.
  unfold transmit_and_receive, for_gt, session_after.
  change (Z.to_nat (99 - 0)) with 99%nat.
  by destruct (for_down 99 99 (trial tsc malicious_x) (fresh_table uninit, w)).
Qed.

Lemma session_mono tsc uninit malicious_x w m n i :
  (m <= n)%nat -> (n <= 255)%nat -> 0 <= i < 256 ->
  rd (session_after tsc uninit m malicious_x w).1 i
  <= rd (session_after tsc uninit n malicious_x w).1 i.
Proof.
  intros Hmn. induction Hmn as [|n Hmn IH]; intros Hn Hi; [lia|].
  pose proof (session_mono_step tsc uninit malicious_x w n i ltac:(lia) Hi).
  specialize (IH ltac:(lia) Hi). lia.
Qed.

Lemma is_table_replicate v : 0 <= v < 256 -> is_table (replicate 256 v).
Proof.
  intros Hv. split; [apply length_replicate|].
  intros i Hi. rewrite rd_replicate by lia. exact Hv.
Qed.

(** ** The simulated time-stamp counter *)

Lemma sim_tsc_elapsed k t i :
  0 <= i < 256 ->
  elapsed (sim_tsc k) (512 * t) i = if i =? k then 40 else 300.
Proof.
  intros Hi. unfold elapsed, sim_tsc.
  set (m := (256 * t + Z.to_nat i)%nat).
  replace (512 * t + 2 * Z.to_nat i + 1)%nat with (2 * m + 1)%nat by lia.
  replace (512 * t + 2 * Z.to_nat i)%nat with (2 * m)%nat by lia.
  assert (Nat.even (2 * m) = true) as ->.
  { rewrite Nat.even_mul. reflexivity. }
  assert (Nat.even (2 * m + 1) = false) as ->.
  { rewrite Nat.even_add, Nat.even_mul. reflexivity. }
  assert (((2 * m + 1) / 2)%nat = m) as ->.
  { symmetry. apply (Nat.div_unique _ 2 m 1); lia. }
  assert (Z.of_nat m mod 256 = i) as ->.
  { replace (Z.of_nat m) with (i + Z.of_nat t * 256) by lia.
    rewrite Z_mod_plus_full. apply Z.mod_small. lia. }
  by destruct (i =? k).
Qed.

(** ** main *)

Lemma main_step_eq tsc uninit malicious_x i out w :
  main_step tsc uninit malicious_x i (out, w) =
  (out ++ [print_result malicious_x
             (transmit_and_receive tsc uninit (wrap64 (malicious_x + i)) w).1],
   (transmit_and_receive tsc uninit (wrap64 (malicious_x + i)) w).2).
Proof.
  unfold main_step.
  by destruct (transmit_and_receive tsc uninit (wrap64 (malicious_x + i)) w).
Qed.

Lemma main_loop_length tsc uninit malicious_x n out w :
  length (for_up n 0 (main_step tsc uninit malicious_x) (out, w)).1
  = (length out + n)%nat.
Proof.
  induction n as [|n IH]; [cbn; lia|].
  rewrite for_up_snoc.
  destruct (for_up n 0 (main_step tsc uninit malicious_x) (out, w)) as [out' w'].
  rewrite main_step_eq. cbn [fst] in *. rewrite length_app. cbn [length]. lia.
Qed.

(** ** The model at concrete inputs *)

Example best_results_all_zero :
  best_results (replicate 256 0) = Result (255, 254) (0, 0).
Proof. reflexivity. Qed.

Example select_x_rounds :
  (fun j => select_x j 3 1000) <$> seqZ 0 8 = [1000; 3; 3; 3; 3; 3; 1000; 3].
Proof. reflexivity. Qed.

Example transmit_byte_in_range :
  events_since initial_world (transmit_byte 3 initial_world)
  = [Clflush_array_size; Load_array 3; Load_partitions (4 * PARTITION_SIZE); Store_temp].
Proof. reflexivity. Qed.

Example receive_bytes_first_trial :
  rd (receive_bytes (sim_tsc 65) (replicate 256 0) initial_world).1 65 = 1 /\
  rd (receive_bytes (sim_tsc 65) (replicate 256 0) initial_world).1 66 = 0.
Proof. by vm_compute. Qed.

(** * The claims *)

(** C1.  The bounds check of [transmit_byte] is architecturally sound.  Every
    load of [array] it performs is at the index [x] it was given and happens
    only when [x < array_size]; hence, when the bound does not exceed the
    length of the buffer, the load is inside the buffer.  For an index [x] at
    or beyond [array_size] the guarded body is not run at all: the only event
    is the flush of the bound, there is no load of [array] or [partitions],
    no store to [temp], and every global keeps its value. *)
Theorem transmit_byte_guard (x : Z) (w : world) :
  (forall i, Load_array i ∈ events_since w (transmit_byte x w) ->
             i = x /\ x < array_size w) /\
  (0 <= x -> array_size w <= Z.of_nat (length (array w)) ->
   forall i, Load_array i ∈ events_since w (transmit_byte x w) ->
             0 <= i < Z.of_nat (length (array w))) /\
  (array_size w <= x ->
     events_since w (transmit_byte x w) = [Clflush_array_size] /\
     forallb (fun e => negb (is_load e || is_store e))
             (events_since w (transmit_byte x w)) = true /\
     temp (transmit_byte x w) = temp w /\
     array (transmit_byte x w) = array w /\
     partitions (transmit_byte x w) = partitions w /\
     array_size (transmit_byte x w) = array_size w).
Proof.
  rewrite (events_since_app _ _ _ (transmit_byte_log x w)).
  unfold transmit_events.
  assert (forall i,
    Load_array i ∈ Clflush_array_size ::
      (if x <? array_size w
       then [Load_array x; Load_partitions (rd (array w) x * PARTITION_SIZE);
             Store_temp]
       else []) -> i = x /\ x < array_size w) as Hload.
  { intros i Hi. apply list_elem_of_In in Hi.
    destruct (Z.ltb_spec x (array_size w)) as [Hlt|Hge]; cbn in Hi.
    - destruct Hi as [H|[H|[H|[H|[]]]]]; try discriminate H.
      injection H as <-. auto.
    - destruct Hi as [H|[]]. discriminate H. }
  split; [exact Hload|]. split.
  - intros Hx Hbound i Hi. destruct (Hload i Hi) as [-> Hlt]. lia.
  - intros Hge. unfold transmit_byte. cbn [emit array_size].
    destruct (Z.ltb_spec x (array_size w)) as [Hlt|_]; [lia|].
    repeat split; reflexivity.
Qed.

Lemma transmit_byte_guard_out_of_range :
  array_size initial_world <= 1000 /\
  events_since initial_world (transmit_byte 1000 initial_world) = [Clflush_array_size] /\
  temp (transmit_byte 1000 initial_world) = temp initial_world.
Proof.
  assert (array_size initial_world <= 1000) as H by (cbn; unfold ARRAY_SIZE; lia).
  split; [exact H|].
  destruct (proj2 (proj2 (transmit_byte_guard 1000 initial_world)) H)
    as (He & _ & Ht & _).
  split; [exact He|exact Ht].
Defined.

(** C2.  Determinism under a simulated timing source: if in every one of the
    99 trials exactly the partition [k] is read within the threshold and every
    other partition is not, then [transmit_and_receive] returns [value[0] = k]
    with [score[0] = 99] (the number of trials) and [score[1] = 0], and [main]
    classifies the decode as "Success". *)
Theorem deterministic_decode (tsc : nat -> Z) (uninit : Z -> Z)
    (malicious_x : Z) (w : world) (k : Z) :
  0 <= k < 256 ->
  (forall t j, (t < 99)%nat -> 0 <= j < 256 ->
     (elapsed tsc (ticks w + 512 * t) j <= CACHE_HIT_THRESHOLD <-> j = k)) ->
  (value (transmit_and_receive tsc uninit malicious_x w).1).1 = k /\
  (score (transmit_and_receive tsc uninit malicious_x w).1).1 = 99 /\
  (score (transmit_and_receive tsc uninit malicious_x w).1).2 = 0 /\
  verdict (print_result malicious_x (transmit_and_receive tsc uninit malicious_x w).1)
    = "Success".
Proof.
  intros Hk Hsim. rewrite transmit_and_receive_eq. cbn [fst].
  pose proof (fun i => session_signal tsc uninit malicious_x w k 99 i Hsim ltac:(lia))
    as Htab.
  set (agg := (session_after tsc uninit 99 malicious_x w).1) in *.
  destruct (best_results_last_max agg) as ((Hb & _ & Hbmax & _) & (Hs & Hsne & _) & Hscore).
  set (r := best_results agg) in *.
  assert ((value r).1 = k) as Hbest.
  { specialize (Hbmax k Hk I). rewrite (Htab k Hk), (Htab _ Hb) in Hbmax.
    rewrite Z.eqb_refl in Hbmax. change (Z.of_nat 99) with 99 in Hbmax.
    destruct (Z.eqb_spec (value r).1 k); [done|lia]. }
  assert ((score r).1 = 99 /\ (score r).2 = 0) as [H1 H2].
  { rewrite Hscore. cbn [fst snd]. rewrite (Htab _ Hb), (Htab _ Hs), Hbest.
    rewrite Z.eqb_refl. destruct (Z.eqb_spec (value r).2 k); [congruence|done]. }
  repeat split; try done.
  unfold print_result. cbn [verdict]. by rewrite H1, H2.
Qed.

Lemma deterministic_decode_sim :
  (value (transmit_and_receive (sim_tsc 65) (fun _ => 0) 1000 initial_world).1).1 = 65 /\
  (score (transmit_and_receive (sim_tsc 65) (fun _ => 0) 1000 initial_world).1).1 = 99 /\
  (score (transmit_and_receive (sim_tsc 65) (fun _ => 0) 1000 initial_world).1).2 = 0 /\
  verdict (print_result 1000
             (transmit_and_receive (sim_tsc 65) (fun _ => 0) 1000 initial_world).1)
    = "Success".
Proof.
  apply (deterministic_decode (sim_tsc 65) (fun _ => 0) 1000 initial_world 65).
  - lia.
  - intros t j Ht Hj. change (ticks initial_world + 512 * t)%nat with (512 * t)%nat.
    rewrite sim_tsc_elapsed by exact Hj. unfold CACHE_HIT_THRESHOLD.
    destruct (Z.eqb_spec j 65); lia.
Defined.

(** C3.  [best_results] is one left-to-right scan of the 256 counters with
    [best_step]; it returns as [value[0]] the last index whose count is the
    highest, as [value[1]] the last index whose count is the highest among the
    remaining indices (the second-highest), and as [score] their raw counts.
    On equal counts the later index wins, for best and for second-best. *)
Theorem best_results_top_two (aggregated_results : list Z) :
  length aggregated_results = 256%nat ->
  let r := best_results aggregated_results in
  for_lt 0 256 (best_step aggregated_results) (-1, -1) = value r /\
  last_max aggregated_results 256 (fun _ => True) (value r).1 /\
  last_max aggregated_results 256 (fun j => j <> (value r).1) (value r).2 /\
  score r = (rd aggregated_results (value r).1, rd aggregated_results (value r).2).
Proof.
  intros _ r. subst r.
  split; [symmetry; apply best_results_value|].
  exact (best_results_last_max aggregated_results).
Qed.

Lemma best_results_top_two_tie :
  length tie_table = 256%nat /\
  last_max tie_table 256 (fun _ => True) (value (best_results tie_table)).1 /\
  score (best_results tie_table)
    = (rd tie_table (value (best_results tie_table)).1,
       rd tie_table (value (best_results tie_table)).2).
Proof.
  assert (length tie_table = 256%nat) as H by reflexivity.
  split; [exact H|].
  destruct (best_results_top_two tie_table H) as (_ & Hb & _ & Hsc).
  split; [exact Hb|exact Hsc].
Defined.

(** C4, as the code has it.  Partitions 3 and 7 hold the same, maximal count;
    the scan reports the later one, 7, as best and the earlier one as
    second-best. *)
Lemma tie_goes_to_later_index :
  rd tie_table 3 = rd tie_table 7 /\
  value (best_results tie_table) = (7, 3) /\
  score (best_results tie_table) = (5, 5).
Proof. by vm_compute. Qed.

(** C4, amended.  Ties in hit count are broken towards the later index: when
    two partitions hold equal counts, the earlier one is never reported as
    best, and it is reported as second-best only when the later one is the
    best. *)
Theorem best_results_prefers_later (aggregated_results : list Z) (i j : Z) :
  length aggregated_results = 256%nat ->
  0 <= i < j -> j < 256 ->
  rd aggregated_results i = rd aggregated_results j ->
  (value (best_results aggregated_results)).1 <> i /\
  ((value (best_results aggregated_results)).2 = i ->
   (value (best_results aggregated_results)).1 = j).
Proof.
  intros _ Hij Hj Heq.
  destruct (best_results_last_max aggregated_results)
    as ((_ & _ & _ & Hblast) & (_ & _ & _ & Hslast) & _).
  split.
  - intros Hb. specialize (Hblast j). rewrite Hb in Hblast. specialize (Hblast ltac:(lia) I). lia.
  - intros Hs. specialize (Hslast j). rewrite Hs in Hslast.
    destruct (Z.eq_dec j (value (best_results aggregated_results)).1) as [<-|Hne];
      [done|].
    specialize (Hslast ltac:(lia) Hne). lia.
Qed.

Lemma best_results_prefers_later_tie :
  (value (best_results tie_table)).1 <> 3 /\
  ((value (best_results tie_table)).2 = 3 -> (value (best_results tie_table)).1 = 7).
Proof.
  apply (best_results_prefers_later tie_table 3 7); [reflexivity|lia|lia|reflexivity].
Defined.

(** C5.  The branchless selection of [train_and_transmit] is extensionally
    the conditional one: for every round index [j >= 0] and all [size_t]
    inputs, the three assignments to [x] leave [malicious_x] in [x] exactly
    when [j % 6 == 0] and [training_x] otherwise.  ([select_x] is built from
    remainder, subtraction, and, or, xor and shift alone.) *)
Theorem select_x_branchless (j training_x malicious_x : Z) :
  0 <= j -> 0 <= training_x < 2 ^ 64 -> 0 <= malicious_x < 2 ^ 64 ->
  select_x j training_x malicious_x = select_by_branch j training_x malicious_x /\
  (Z.rem j 6 = 0 -> select_x j training_x malicious_x = malicious_x) /\
  (Z.rem j 6 <> 0 -> select_x j training_x malicious_x = training_x).
Proof.
  intros Hj Ht Hm. rewrite (select_x_spec j training_x malicious_x Hj Ht Hm).
  unfold select_by_branch. destruct (Z.eqb_spec (Z.rem j 6) 0); by repeat split.
Qed.

Lemma select_x_branchless_round_12 :
  select_x 12 3 1000 = select_by_branch 12 3 1000 /\
  select_x 12 3 1000 = 1000.
Proof.
  destruct (select_x_branchless 12 3 1000) as (H1 & H2 & _); [lia|lia|lia|].
  split; [exact H1|]. apply H2. reflexivity.
Defined.

(** C6, as the code has it.  One call of [train_and_transmit] invokes
    [transmit_byte] 31 times, not 30: the loop runs for [j] from 0 to 30
    inclusive. *)
Lemma train_and_transmit_31_calls :
  invocations (events_since initial_world (train_and_transmit 3 1000 initial_world))
    = 31%nat /\
  invocations (events_since initial_world (train_and_transmit 3 1000 initial_world))
    <> 30%nat.
Proof. by vm_compute. Qed.

(** C6, amended.  [train_and_transmit] runs exactly [TRAINING_RUNS * 6 + 1 = 31]
    rounds, [j = 0 .. 30], each invoking [transmit_byte] once: with
    [malicious_x] in the 6 rounds where [j % 6 == 0] and with [training_x] in
    the other 25, so every malicious call but the first follows 5 legitimate
    ones. *)
Theorem train_and_transmit_rounds (training_x malicious_x : Z) (w : world) :
  0 <= training_x < 2 ^ 64 -> 0 <= malicious_x < 2 ^ 64 ->
  train_and_transmit training_x malicious_x w
    = foldl (fun w x => transmit_byte x w) w
        ((fun j => if Z.rem j 6 =? 0 then malicious_x else training_x)
           <$> seqZ 0 (TRAINING_RUNS * 6 + 1)) /\
  invocations (events_since w (train_and_transmit training_x malicious_x w))
    = 31%nat /\
  length (seqZ 0 (TRAINING_RUNS * 6 + 1)) = 31%nat /\
  List.filter (fun j => Z.rem j 6 =? 0) (seqZ 0 (TRAINING_RUNS * 6 + 1))
    = [0; 6; 12; 18; 24; 30] /\
  length (List.filter (fun j => negb (Z.rem j 6 =? 0)) (seqZ 0 (TRAINING_RUNS * 6 + 1)))
    = 25%nat.
Proof.
  intros Ht Hm. split; [|split; [|by vm_compute]].
  - unfold train_and_transmit, for_le. rewrite for_up_foldl, foldl_fmap.
    change (Z.of_nat (Z.to_nat (TRAINING_RUNS * 6 + 1 - 0))) with 31.
    change (TRAINING_RUNS * 6 + 1) with 31.
    assert (Forall (fun j => 0 <= j) (seqZ 0 31)) as Hnn.
    { apply Forall_forall. intros j Hj. apply elem_of_seqZ in Hj. lia. }
    revert w. induction Hnn as [|j l Hj _ IH]; intros w; [reflexivity|].
    cbn [foldl]. rewrite IH. unfold train_step. rewrite delay_id.
    by rewrite select_x_spec.
  - pose proof (train_and_transmit_extends training_x malicious_x w) as (_ & _ & Hlog).
    rewrite (events_since_app _ _ _ Hlog). unfold train_events.
    rewrite invocations_bind; [reflexivity|].
    intros j. apply invocations_transmit.
Qed.

Lemma train_and_transmit_rounds_sample :
  train_and_transmit 3 1000 initial_world
    = foldl (fun w x => transmit_byte x w) initial_world
        ((fun j => if Z.rem j 6 =? 0 then 1000 else 3)
           <$> seqZ 0 (TRAINING_RUNS * 6 + 1)) /\
  invocations (events_since initial_world (train_and_transmit 3 1000 initial_world))
    = 31%nat.
Proof.
  destruct (train_and_transmit_rounds 3 1000 initial_world) as (H1 & H2 & _);
    [lia|lia|].
  split; [exact H1|exact H2].
Defined.

(** C7, as the code has it.  A counter that already holds 255 is not
    incremented by a hit: the 8-bit counter wraps to 0. *)
Lemma receive_bytes_wraps_at_255 :
  elapsed (fun _ => 0) (ticks initial_world) 0 <= CACHE_HIT_THRESHOLD /\
  rd saturated_table 0 = 255 /\
  rd (receive_bytes (fun _ => 0) saturated_table initial_world).1 0 = 0.
Proof. by vm_compute. Qed.

(** C7, amended.  For every initial counter table and every timing source,
    [receive_bytes] visits the partitions [i = 0 .. 255] in ascending order,
    each exactly once, with exactly one read of the partition between two
    readings of the time-stamp counter, and it increments counter [i] by
    exactly 1 modulo 256 (by exactly 1 when the counter is below 255, to 0
    from 255) iff the elapsed time measured for partition [i] is at most
    [CACHE_HIT_THRESHOLD = 80]; otherwise counter [i] is unchanged. *)
Theorem receive_bytes_counts (tsc : nat -> Z) (aggregated_results : list Z)
    (w : world) :
  is_table aggregated_results ->
  events_since w (receive_bytes tsc aggregated_results w).2
    = (seqZ 0 256 ≫=
         fun i => [Rdtscp; Load_partitions (i * PARTITION_SIZE); Rdtscp]) /\
  List.filter is_load (events_since w (receive_bytes tsc aggregated_results w).2)
    = (fun i => Load_partitions (i * PARTITION_SIZE)) <$> seqZ 0 256 /\
  is_table (receive_bytes tsc aggregated_results w).1 /\
  CACHE_HIT_THRESHOLD = 80 /\
  forall i, 0 <= i < 256 ->
    (elapsed tsc (ticks w) i <= CACHE_HIT_THRESHOLD ->
       rd (receive_bytes tsc aggregated_results w).1 i
       = (rd aggregated_results i + 1) mod 256) /\
    (CACHE_HIT_THRESHOLD < elapsed tsc (ticks w) i ->
       rd (receive_bytes tsc aggregated_results w).1 i = rd aggregated_results i) /\
    (rd (receive_bytes tsc aggregated_results w).1 i <> rd aggregated_results i
     <-> elapsed tsc (ticks w) i <= CACHE_HIT_THRESHOLD) /\
    (rd aggregated_results i < 255 ->
       (rd (receive_bytes tsc aggregated_results w).1 i = rd aggregated_results i + 1
        <-> elapsed tsc (ticks w) i <= CACHE_HIT_THRESHOLD)).
Proof.
  intros Htab.
  pose proof (receive_bytes_extends tsc aggregated_results w) as (_ & _ & Hlog).
  rewrite (events_since_app _ _ _ Hlog).
  split; [reflexivity|]. split; [by vm_compute|].
  split; [by apply receive_bytes_is_table|]. split; [reflexivity|].
  intros i Hi. destruct Htab as [Hlen Hbytes].
  destruct (receive_bytes_table tsc aggregated_results w Hlen) as [_ Hrd].
  rewrite (Hrd i Hi). specialize (Hbytes i Hi).
  destruct (Z.leb_spec (elapsed tsc (ticks w) i) CACHE_HIT_THRESHOLD).
  - split; [done|]. split; [lia|]. split.
    + split; [done|]. intros _. unfold wrap8.
      destruct (Z.eq_dec (rd aggregated_results i) 255) as [->|Hne]; [done|].
      rewrite Z.mod_small; lia.
    + intros Hlt. rewrite wrap8_small by lia. tauto.
  - split; [lia|]. split; [done|]. split; [lia|]. intros Hlt. lia.
Qed.

Lemma receive_bytes_counts_saturated :
  is_table saturated_table /\
  is_table (receive_bytes (fun _ => 0) saturated_table initial_world).1 /\
  rd (receive_bytes (fun _ => 0) saturated_table initial_world).1 0
  = (rd saturated_table 0 + 1) mod 256.
Proof.
  assert (is_table saturated_table) as H by (apply is_table_replicate; lia).
  split; [exact H|].
  destruct (receive_bytes_counts (fun _ => 0) saturated_table initial_world H)
    as (_ & _ & Ht & _ & Hrd).
  split; [exact Ht|]. apply (Hrd 0); [lia|by vm_compute].
Defined.

(** C8.  [transmit_and_receive] starts from a table of 256 zeroed counters
    whatever the uninitialised array held, then runs exactly 99 trials, for
    [tries = 99] down to [1].  Each trial performs, in this order,
    [flush_cache], [train_and_transmit] with the legitimate index
    [tries % ARRAY_SIZE] (always within [0 .. ARRAY_SIZE - 1], every value of
    that range being used) and the target offset as malicious index, and
    [receive_bytes] on the one table that all trials share.  [best_results] is
    applied once, to the table left by the last trial. *)
Theorem transmit_and_receive_protocol (tsc : nat -> Z) (uninit : Z -> Z)
    (malicious_x : Z) (w : world) :
  fresh_table uninit = replicate 256 0 /\
  session_after tsc uninit 0 malicious_x w = (replicate 256 0, w) /\
  (forall n, (n < 99)%nat ->
     session_after tsc uninit (Datatypes.S n) malicious_x w =
     receive_bytes tsc (session_after tsc uninit n malicious_x w).1
       (train_and_transmit (Z.rem (99 - Z.of_nat n) ARRAY_SIZE) malicious_x
          (flush_cache (session_after tsc uninit n malicious_x w).2))) /\
  transmit_and_receive tsc uninit malicious_x w =
    (best_results (session_after tsc uninit 99 malicious_x w).1,
     (session_after tsc uninit 99 malicious_x w).2) /\
  events_since w (transmit_and_receive tsc uninit malicious_x w).2 =
    (seqZ 0 99 ≫= fun t =>
       flush_events
       ++ train_events w (Z.rem (99 - t) ARRAY_SIZE) malicious_x
       ++ receive_events) /\
  (forall tries, 1 <= tries <= 99 ->
     0 <= Z.rem tries ARRAY_SIZE < ARRAY_SIZE /\ ARRAY_SIZE = array_size initial_world) /\
  (forall x, 0 <= x < ARRAY_SIZE ->
     exists tries, 1 <= tries <= 99 /\ Z.rem tries ARRAY_SIZE = x).
Proof.
  split; [apply fresh_table_zero|]. split; [reflexivity|]. split; [|split; [|split; [|split]]].
  - intros n _. rewrite session_after_S.
    by destruct (session_after tsc uninit n malicious_x w).
  - apply transmit_and_receive_eq.
  - rewrite transmit_and_receive_eq. cbn [snd].
    pose proof (session_extends tsc uninit malicious_x w 99) as (_ & _ & Hlog).
    by rewrite (events_since_app _ _ _ Hlog).
  - intros tries Htries. split; [|reflexivity].
    apply Z.rem_bound_pos; unfold ARRAY_SIZE; lia.
  - intros x Hx. unfold ARRAY_SIZE in *. exists (x + 16). split; [lia|].
    rewrite Z.rem_mod_nonneg by lia.
    replace (x + 16) with (x + 1 * 16) by lia.
    rewrite Z_mod_plus_full. apply Z.mod_small. lia.
Qed.

Lemma transmit_and_receive_protocol_first_trial :
  session_after (sim_tsc 65) (fun _ => 0) 1 1000 initial_world =
  receive_bytes (sim_tsc 65) (replicate 256 0)
    (train_and_transmit (Z.rem 99 ARRAY_SIZE) 1000 (flush_cache initial_world)) /\
  0 <= Z.rem 99 ARRAY_SIZE < ARRAY_SIZE.
Proof.
  destruct (transmit_and_receive_protocol (sim_tsc 65) (fun _ => 0) 1000 initial_world)
    as (_ & _ & Hstep & _ & _ & Hrange & _).
  split.
  - apply (Hstep 0%nat). lia.
  - apply (Hrange 99). lia.
Defined.

(** C9.  [main] prints "Success" iff [score[0] >= 2 * score[1]] and "Unclear"
    otherwise; in both cases it prints the best value [value[0]] with its
    score.  Every decoded byte yields one report line: a low-confidence
    decode changes only the verdict, and [main] reports all [len] bytes. *)
Theorem print_result_confidence (tsc : nat -> Z) (uninit : Z -> Z)
    (malicious_x len i : Z) (r : result) (out : list report) (w : world) :
  (verdict (print_result malicious_x r) = "Success"
   <-> (score r).1 >= 2 * (score r).2) /\
  (verdict (print_result malicious_x r) = "Unclear"
   <-> (score r).1 < 2 * (score r).2) /\
  best_value (print_result malicious_x r) = (value r).1 /\
  best_score (print_result malicious_x r) = (score r).1 /\
  main_step tsc uninit malicious_x i (out, w) =
    (out ++ [print_result malicious_x
               (transmit_and_receive tsc uninit (wrap64 (malicious_x + i)) w).1],
     (transmit_and_receive tsc uninit (wrap64 (malicious_x + i)) w).2) /\
  length (main tsc uninit malicious_x len w).1 = Z.to_nat len.
Proof.
  split; [|split; [|split; [reflexivity|split; [reflexivity|split]]]].
  - unfold print_result. cbn [verdict].
    destruct (Z.geb_spec (score r).1 (2 * (score r).2)); split; intros; (done || lia).
  - unfold print_result. cbn [verdict].
    destruct (Z.geb_spec (score r).1 (2 * (score r).2)); split; intros; (done || lia).
  - apply main_step_eq.
  - unfold main, for_lt. rewrite main_loop_length, Z.sub_0_r. reflexivity.
Qed.

(** C10.  Within one decode session every counter is monotonically
    non-decreasing: from one trial to the next a counter stays or grows by
    exactly 1, after [n] trials no counter exceeds [n], so over the 99 trials
    no counter exceeds 99 and the 8-bit counters never wrap around. *)
Theorem session_counters_monotone (tsc : nat -> Z) (uninit : Z -> Z)
    (malicious_x : Z) (w : world) (m n : nat) (i : Z) :
  (m <= n)%nat -> (n <= 99)%nat -> 0 <= i < 256 ->
  rd (session_after tsc uninit m malicious_x w).1 i
    <= rd (session_after tsc uninit n malicious_x w).1 i /\
  0 <= rd (session_after tsc uninit n malicious_x w).1 i <= Z.of_nat n /\
  rd (session_after tsc uninit n malicious_x w).1 i <= 99 /\
  rd (session_after tsc uninit n malicious_x w).1 i
    <= rd (trial tsc malicious_x (99 - Z.of_nat n)
             (session_after tsc uninit n malicious_x w)).1 i
    <= rd (session_after tsc uninit n malicious_x w).1 i + 1.
Proof.
  intros Hmn Hn Hi.
  pose proof (session_bound tsc uninit malicious_x w n i ltac:(lia) Hi).
  split; [apply session_mono; (done || lia)|]. split; [done|]. split; [lia|].
  rewrite <- session_after_S. apply session_mono_step; (done || lia).
Qed.

Lemma session_counters_monotone_sim :
  rd (session_after (sim_tsc 65) (fun _ => 0) 3 1000 initial_world).1 65
    <= rd (session_after (sim_tsc 65) (fun _ => 0) 99 1000 initial_world).1 65 /\
  rd (session_after (sim_tsc 65) (fun _ => 0) 99 1000 initial_world).1 65 <= 99.
Proof.
  destruct (session_counters_monotone (sim_tsc 65) (fun _ => 0) 1000 initial_world
              3 99 65) as (H1 & _ & H2 & _); [lia|lia|lia|].
  split; [exact H1|exact H2].
Defined.

(** * Further properties of the pipeline *)

(** ** Loop invariants *)

Lemma for_up_invariant {S : Type} (P : S -> Prop) (body : Z -> S -> S) n i s :
  (forall j s, P s -> P (body j s)) -> P s -> P (for_up n i body s).
Proof.
  intros Hbody. revert i s. induction n as [|n IH]; intros i s Hs; [exact Hs|].
  cbn [for_up]. apply IH, Hbody, Hs.
Qed.

Lemma for_down_invariant {S : Type} (P : S -> Prop) (body : Z -> S -> S) n i s :
  (forall j s, P s -> P (body j s)) -> P s -> P (for_down n i body s).
Proof.
  intros Hbody. revert i s. induction n as [|n IH]; intros i s Hs; [exact Hs|].
  cbn [for_down]. apply IH, Hbody, Hs.
Qed.



(** ** The sink [temp] *)

Lemma land_le_l (a b : Z) : 0 <= a -> 0 <= Z.land a b <= a.
Proof.
  intros Ha. split; [apply Z.land_nonneg; by left|].
  assert (Z.ldiff (Z.land a b) a = 0) as Hsub.
  { apply Z.bits_inj'. intros n Hn.
    rewrite Z.ldiff_spec, Z.land_spec, Z.bits_0.
    by destruct (Z.testbit a n), (Z.testbit b n). }
  pose proof (Z.sub_nocarry_ldiff a (Z.land a b) Hsub) as Hsubtr.
  assert (0 <= Z.ldiff a (Z.land a b)) by (apply Z.ldiff_nonneg; by left).
  lia.
Qed.

Lemma transmit_byte_temp x w :
  0 <= temp w -> 0 <= temp (transmit_byte x w) <= temp w.
Proof.
  intros Ht. unfold transmit_byte. cbn [emit array_size].
  destruct (x <? array_size w); cbn [emit set_temp temp array partitions];
    [by apply land_le_l|lia].
Qed.

Lemma flush_cache_temp w : temp (flush_cache w) = temp w.
Proof.
  unfold flush_cache, for_lt.
  by apply (for_up_invariant (fun w' => temp w' = temp w)).
Qed.

Lemma train_and_transmit_temp training_x malicious_x w :
  0 <= temp w -> 0 <= temp (train_and_transmit training_x malicious_x w) <= temp w.
Proof.
  intros Ht. unfold train_and_transmit, for_le.
  apply (for_up_invariant (fun w' => 0 <= temp w' <= temp w)); [|lia].
  intros j s Hs. unfold train_step. rewrite delay_id.
  pose proof (transmit_byte_temp (select_x j training_x malicious_x) s). lia.
Qed.

Lemma receive_bytes_temp tsc agg w : temp (receive_bytes tsc agg w).2 = temp w.
Proof.
  unfold receive_bytes, for_lt.
  apply (for_up_invariant (fun s : list Z * world => temp s.2 = temp w)); [|done].
  intros j [a w'] Hs. by rewrite receive_step_eq.
Qed.

Lemma trial_temp tsc malicious_x tries (s : list Z * world) :
  0 <= temp s.2 -> 0 <= temp (trial tsc malicious_x tries s).2 <= temp s.2.
Proof.
  destruct s as [agg w]. cbn [snd]. intros Ht. unfold trial.
  rewrite receive_bytes_temp.
  pose proof (train_and_transmit_temp (Z.rem tries ARRAY_SIZE) malicious_x
                (flush_cache w)) as H.
  rewrite flush_cache_temp in H. by apply H.
Qed.

(** ** The counter table depends on the world through the time-stamp
    counter alone *)




(** ** Accesses stay in bounds *)

Lemma rd_bytes a x : bytes a -> 0 <= rd a x < 256.
Proof.
  intros Ha. unfold rd. destruct (a !! Z.to_nat x) as [b|] eqn:E; cbn; [|lia].
  exact (Forall_lookup_1 _ _ _ _ Ha E).
Qed.

Lemma partition_in_bounds w p :
  0 <= p < 256 ->
  in_bounds w (Load_partitions (p * PARTITION_SIZE)) /\
  in_bounds w (Clflush_partitions (p * PARTITION_SIZE)).
Proof.
  intros Hp. cbn. rewrite Z_mod_mult. unfold PARTITION_SIZE. lia.
Qed.

Lemma flush_events_in_bounds w : Forall (in_bounds w) flush_events.
Proof.
  unfold flush_events. apply Forall_fmap, Forall_seqZ. intros p Hp.
  apply (partition_in_bounds w p). lia.
Qed.

Lemma receive_events_in_bounds w : Forall (in_bounds w) receive_events.
Proof.
  unfold receive_events. apply Forall_bind, Forall_seqZ. intros p Hp.
  apply Forall_cons_2; [exact I|].
  apply Forall_cons_2; [apply (partition_in_bounds w p); lia|].
  apply Forall_cons_2; [exact I|apply Forall_nil_2].
Qed.

Lemma transmit_events_in_bounds w x :
  0 <= x -> bytes (array w) -> Forall (in_bounds w) (transmit_events w x).
Proof.
  intros Hx Ha. unfold transmit_events.
  apply Forall_cons_2; [exact I|].
  destruct (Z.ltb_spec x (array_size w)); [|apply Forall_nil_2].
  apply Forall_cons_2; [cbn; lia|].
  apply Forall_cons_2;
    [apply (partition_in_bounds w (rd (array w) x)); by apply rd_bytes|].
  apply Forall_cons_2; [exact I|apply Forall_nil_2].
Qed.

Lemma train_events_in_bounds w training_x malicious_x :
  0 <= training_x < 2 ^ 64 -> 0 <= malicious_x < 2 ^ 64 -> bytes (array w) ->
  Forall (in_bounds w) (train_events w training_x malicious_x).
Proof.
  intros Ht Hm Ha. unfold train_events. apply Forall_bind, Forall_seqZ.
  intros j Hj. apply transmit_events_in_bounds; [|exact Ha].
  rewrite select_x_spec by lia. destruct (Z.rem j 6 =? 0); lia.
Qed.

Lemma trial_events_in_bounds w malicious_x tries :
  0 <= tries -> 0 <= malicious_x < 2 ^ 64 -> bytes (array w) ->
  Forall (in_bounds w) (trial_events w malicious_x tries).
Proof.
  intros Htries Hm Ha. unfold trial_events. rewrite !Forall_app.
  split; [apply flush_events_in_bounds|].
  split; [|apply receive_events_in_bounds].
  apply train_events_in_bounds; [|exact Hm|exact Ha].
  pose proof (Z.rem_bound_pos tries ARRAY_SIZE Htries ltac:(unfold ARRAY_SIZE; lia)).
  unfold ARRAY_SIZE in *. lia.
Qed.

Lemma decode_extends tsc uninit malicious_x w :
  extends w (transmit_and_receive tsc uninit malicious_x w).2 (99 * 512)
          (seqZ 0 99 ≫= fun t => trial_events w malicious_x (99 - t)).
Proof.
  rewrite transmit_and_receive_eq. cbn [snd].
  apply (session_extends tsc uninit malicious_x w 99).
Qed.

Lemma decode_in_bounds tsc uninit malicious_x w :
  0 <= malicious_x < 2 ^ 64 -> bytes (array w) ->
  Forall (in_bounds w) (events_since w (transmit_and_receive tsc uninit malicious_x w).2).
Proof.
  intros Hm Ha.
  pose proof (decode_extends tsc uninit malicious_x w) as (_ & _ & Hlog).
  rewrite (events_since_app _ _ _ Hlog). apply Forall_bind, Forall_seqZ.
  intros t Ht. apply trial_events_in_bounds; (done || lia).
Qed.

Lemma in_bounds_same w w' e :
  array_size w' = array_size w -> in_bounds w' e <-> in_bounds w e.
Proof. intros H. destruct e; cbn; by rewrite ?H. Qed.

(** ** Flat tables *)

Lemma best_results_flat a :
  (forall i j, 0 <= i < 256 -> 0 <= j < 256 -> rd a i = rd a j) ->
  value (best_results a) = (255, 254) /\
  score (best_results a) = (rd a 255, rd a 255).
Proof.
  intros Hflat.
  destruct (best_results_last_max a)
    as ((Hb & _ & _ & Hblast) & (Hs & Hsne & _ & Hslast) & Hscore).
  assert ((value (best_results a)).1 = 255) as Hbest.
  { destruct (Z.eq_dec (value (best_results a)).1 255) as [|Hne]; [done|].
    specialize (Hblast 255 ltac:(lia) I).
    rewrite (Hflat 255 (value (best_results a)).1) in Hblast by lia. lia. }
  assert ((value (best_results a)).2 = 254) as Hsecond.
  { destruct (Z.eq_dec (value (best_results a)).2 254) as [|Hne]; [done|].
    specialize (Hslast 254 ltac:(lia) ltac:(lia)).
    rewrite (Hflat 254 (value (best_results a)).2) in Hslast by lia. lia. }
  split.
  - destruct (value (best_results a)) as [b s]. cbn [fst snd] in *. congruence.
  - rewrite Hscore, Hbest, Hsecond. f_equal. apply Hflat; lia.
Qed.

Lemma session_flat_miss tsc uninit malicious_x w n i :
  (forall t j, (t < 99)%nat -> 0 <= j < 256 ->
     CACHE_HIT_THRESHOLD < elapsed tsc (ticks w + 512 * t) j) ->
  (n <= 99)%nat -> 0 <= i < 256 ->
  rd (session_after tsc uninit n malicious_x w).1 i = 0.
Proof.
  intros Hmiss Hn Hi. induction n as [|n IH].
  - unfold session_after. cbn [for_down fst]. rewrite fresh_table_zero.
    by rewrite rd_replicate by lia.
  - rewrite session_step by done. rewrite IH by lia.
    specialize (Hmiss n i ltac:(lia) Hi).
    destruct (Z.leb_spec (elapsed tsc (ticks w + 512 * n) i) CACHE_HIT_THRESHOLD);
      [lia|done].
Qed.

Lemma session_flat_hit tsc uninit malicious_x w n i :
  (forall t j, (t < 99)%nat -> 0 <= j < 256 ->
     elapsed tsc (ticks w + 512 * t) j <= CACHE_HIT_THRESHOLD) ->
  (n <= 99)%nat -> 0 <= i < 256 ->
  rd (session_after tsc uninit n malicious_x w).1 i = Z.of_nat n.
Proof.
  intros Hhit Hn Hi. induction n as [|n IH].
  - unfold session_after. cbn [for_down fst]. rewrite fresh_table_zero.
    by rewrite rd_replicate by lia.
  - rewrite session_step by done. rewrite IH by lia.
    specialize (Hhit n i ltac:(lia) Hi).
    destruct (Z.leb_spec (elapsed tsc (ticks w + 512 * n) i) CACHE_HIT_THRESHOLD);
      [|lia].
    rewrite wrap8_small; lia.
Qed.

(** ** The extra properties *)

(** X1.  [flush_cache] flushes the first byte of each of the 256 partitions,
    in ascending order and each exactly once; every flushed address lies
    inside [partitions]; nothing else happens: [temp], the time-stamp
    counter, [array_size], [array] and [partitions] are left as they
    were. *)
Theorem flush_cache_each_partition_once (w : world) :
  events_since w (flush_cache w)
    = (fun i => Clflush_partitions (i * PARTITION_SIZE)) <$> seqZ 0 256 /\
  length (events_since w (flush_cache w)) = 256%nat /\
  NoDup (events_since w (flush_cache w)) /\
  Forall (in_bounds w) (events_since w (flush_cache w)) /\
  temp (flush_cache w) = temp w /\
  ticks (flush_cache w) = ticks w /\
  same_globals w (flush_cache w).
Proof.
  pose proof (flush_cache_extends w) as (Hg & Ht & Hlog).
  rewrite (events_since_app _ _ _ Hlog).
  split; [reflexivity|]. split; [reflexivity|]. split; [|split].
  - unfold flush_events. apply NoDup_fmap_2; [|apply NoDup_seqZ].
    intros i j H. injection H. unfold PARTITION_SIZE. lia.
  - apply flush_events_in_bounds.
  - split; [apply flush_cache_temp|]. split; [lia|exact Hg].
Qed.

(** X2.  One call of [transmit_and_receive] never writes [array_size],
    [array] or [partitions], and executes [__rdtscp] exactly
    [99 * 512 = 50688] times (two readings for each of the 256 partitions in
    each of the 99 trials). *)
Theorem transmit_and_receive_frame (tsc : nat -> Z) (uninit : Z -> Z)
    (malicious_x : Z) (w : world) :
  array_size (transmit_and_receive tsc uninit malicious_x w).2 = array_size w /\
  array (transmit_and_receive tsc uninit malicious_x w).2 = array w /\
  partitions (transmit_and_receive tsc uninit malicious_x w).2 = partitions w /\
  ticks (transmit_and_receive tsc uninit malicious_x w).2 = (ticks w + 99 * 512)%nat /\
  length (List.filter is_rdtscp
            (events_since w (transmit_and_receive tsc uninit malicious_x w).2))
    = (99 * 512)%nat.
Proof.
  pose proof (decode_extends tsc uninit malicious_x w) as ((H1 & H2 & H3) & Ht & Hlog).
  repeat (split; [assumption|]).
  rewrite (events_since_app _ _ _ Hlog).
  assert (forall (l : list Z) (f : Z -> list event) (c : nat),
    (forall t, length (List.filter
                 is_rdtscp (f t)) = c) ->
    length (List.filter is_rdtscp
              (l ≫= f)) = (length l * c)%nat) as Hcount.
  { intros l f c Hf. induction l as [|t l IH]; [reflexivity|].
    cbn [mbind list_bind]. rewrite List.filter_app, length_app, Hf, IH. cbn. lia. }
  rewrite (Hcount _ _ 512%nat); [reflexivity|].
  intros t. unfold trial_events. rewrite !List.filter_app, !length_app.
  assert (length (List.filter
            is_rdtscp
            (train_events w (Z.rem (99 - t) ARRAY_SIZE) malicious_x)) = 0%nat) as ->.
  { unfold train_events. rewrite (Hcount _ _ 0%nat); [lia|].
    intros j. unfold transmit_events. by destruct (_ <? _). }
  reflexivity.
Qed.

(** X3.  The sink [temp] never grows: [temp &= ...] keeps it between 0 and
    its previous value, through every call of [transmit_byte] made by a
    decode; in particular a [temp] that is 0, as the program initialises
    it, is still 0 after [transmit_and_receive]. *)
Theorem temp_never_grows (tsc : nat -> Z) (uninit : Z -> Z)
    (malicious_x : Z) (w : world) :
  0 <= temp w ->
  0 <= temp (transmit_and_receive tsc uninit malicious_x w).2 <= temp w /\
  (temp w = 0 -> temp (transmit_and_receive tsc uninit malicious_x w).2 = 0) /\
  (forall x, 0 <= temp (transmit_byte x w) <= temp w).
Proof.
  intros Ht.
  assert (0 <= temp (transmit_and_receive tsc uninit malicious_x w).2 <= temp w) as H.
  { rewrite transmit_and_receive_eq. cbn [snd]. unfold session_after.
    apply (for_down_invariant (fun s : list Z * world => 0 <= temp s.2 <= temp w));
      [|cbn; lia].
    intros j s Hs. pose proof (trial_temp tsc malicious_x j s). lia. }
  split; [exact H|]. split; [lia|]. intros x. by apply transmit_byte_temp.
Qed.

Lemma temp_never_grows_initially :
  0 <= temp initial_world /\
  temp (transmit_and_receive (sim_tsc 65) (fun _ => 0) 1000 initial_world).2 = 0.
Proof.
  assert (0 <= temp initial_world) as H by (cbn; lia).
  split; [exact H|].
  destruct (temp_never_grows (sim_tsc 65) (fun _ => 0) 1000 initial_world H)
    as (_ & H0 & _).
  apply H0. reflexivity.
Defined.



(** X5.  Architectural memory safety of a decode: whatever 64-bit target
    offset is given, every load of [array] that [transmit_and_receive]
    performs is at an index in [0 .. array_size - 1], and every load or flush
    of [partitions] is at the first byte of one of its 256 partitions,
    provided [array] holds bytes. *)
Theorem decode_stays_in_bounds (tsc : nat -> Z) (uninit : Z -> Z)
    (malicious_x : Z) (w : world) :
  0 <= malicious_x < 2 ^ 64 -> bytes (array w) ->
  Forall (in_bounds w)
         (events_since w (transmit_and_receive tsc uninit malicious_x w).2) /\
  (forall i, Load_array i ∈ events_since w (transmit_and_receive tsc uninit malicious_x w).2 ->
             0 <= i < array_size w) /\
  (array_size w <= malicious_x ->
   Load_array malicious_x
     ∉ events_since w (transmit_and_receive tsc uninit malicious_x w).2).
Proof.
  intros Hm Ha.
  pose proof (decode_in_bounds tsc uninit malicious_x w Hm Ha) as H.
  split; [exact H|].
  assert (forall i,
    Load_array i ∈ events_since w (transmit_and_receive tsc uninit malicious_x w).2 ->
    0 <= i < array_size w) as Hload.
  { intros i Hi. rewrite Forall_forall in H. exact (H _ Hi). }
  split; [exact Hload|]. intros Hge Hin. specialize (Hload _ Hin). lia.
Qed.

Lemma decode_stays_in_bounds_initially :
  bytes (array initial_world) /\
  Forall (in_bounds initial_world)
         (events_since initial_world
            (transmit_and_receive (sim_tsc 65) (fun _ => 0) 1000 initial_world).2).
Proof.
  assert (bytes (array initial_world)) as H.
  { unfold bytes. cbn. repeat (apply Forall_cons_2; [lia|]). apply Forall_nil_2. }
  split; [exact H|].
  apply (decode_stays_in_bounds (sim_tsc 65) (fun _ => 0) 1000 initial_world); [lia|exact H].
Defined.

(** X6.  With a legitimate index below [array_size] and a target offset at
    or beyond it, the only architectural loads of a training run are those of
    its 25 legitimate rounds: [array] is loaded 25 times at [training_x],
    [partitions] 25 times at the partition selected by [array[training_x]];
    the 6 rounds that carry the target offset load nothing. *)
Theorem train_and_transmit_loads (training_x malicious_x : Z) (w : world) :
  0 <= training_x < array_size w -> array_size w <= malicious_x < 2 ^ 64 ->
  List.filter is_array_load (events_since w (train_and_transmit training_x malicious_x w))
    = replicate 25 (Load_array training_x) /\
  List.filter is_partitions_load
              (events_since w (train_and_transmit training_x malicious_x w))
    = replicate 25 (Load_partitions (rd (array w) training_x * PARTITION_SIZE)) /\
  List.filter is_store (events_since w (train_and_transmit training_x malicious_x w))
    = replicate 25 Store_temp.
Proof.
  intros Ht Hm.
  pose proof (train_and_transmit_extends training_x malicious_x w) as (_ & _ & Hlog).
  rewrite (events_since_app _ _ _ Hlog). unfold train_events.
  rewrite (Forall_bind_ext _
    (fun j => if Z.rem j 6 =? 0 then [Clflush_array_size]
              else [Clflush_array_size; Load_array training_x;
                    Load_partitions (rd (array w) training_x * PARTITION_SIZE);
                    Store_temp])).
  - by vm_compute.
  - apply Forall_seqZ. intros j Hj. unfold transmit_events.
    rewrite select_x_spec by lia. destruct (Z.rem j 6 =? 0).
    + by destruct (Z.ltb_spec malicious_x (array_size w)); [lia|].
    + by destruct (Z.ltb_spec training_x (array_size w)); [|lia].
Qed.

Lemma train_and_transmit_loads_initially :
  List.filter is_array_load
    (events_since initial_world (train_and_transmit 3 1000 initial_world))
    = replicate 25 (Load_array 3).
Proof.
  destruct (train_and_transmit_loads 3 1000 initial_world) as (H & _).
  - cbn. unfold ARRAY_SIZE. lia.
  - cbn. unfold ARRAY_SIZE. lia.
  - exact H.
Defined.

(** X7.  [best_results] always reports two different partitions, both in
    [0 .. 255]; the best score is at least the second score, and no
    partition other than the best one has a count above the second score. *)
Theorem best_results_ordered (aggregated_results : list Z) :
  length aggregated_results = 256%nat ->
  0 <= (value (best_results aggregated_results)).1 < 256 /\
  0 <= (value (best_results aggregated_results)).2 < 256 /\
  (value (best_results aggregated_results)).1
    <> (value (best_results aggregated_results)).2 /\
  (score (best_results aggregated_results)).2
    <= (score (best_results aggregated_results)).1 /\
  (forall j, 0 <= j < 256 -> j <> (value (best_results aggregated_results)).1 ->
     rd aggregated_results j <= (score (best_results aggregated_results)).2).
Proof.
  intros _.
  destruct (best_results_last_max aggregated_results)
    as ((Hb & _ & Hbmax & _) & (Hs & Hsne & Hsmax & _) & Hscore).
  rewrite Hscore. cbn [fst snd].
  split; [exact Hb|]. split; [exact Hs|]. split; [congruence|].
  split; [by apply Hbmax|exact Hsmax].
Qed.

Lemma best_results_ordered_tie :
  (value (best_results tie_table)).1 <> (value (best_results tie_table)).2 /\
  (score (best_results tie_table)).2 <= (score (best_results tie_table)).1.
Proof.
  destruct (best_results_ordered tie_table) as (_ & _ & H1 & H2 & _); [reflexivity|].
  split; [exact H1|exact H2].
Defined.

(** X8.  Noise tolerance of the vote: a partition whose count is strictly
    above every other count is reported as best with that count; if moreover
    its count is at least twice every other count [main] prints "Success",
    and if some other count exceeds half of it [main] prints "Unclear". *)
Theorem best_results_unique_max (aggregated_results : list Z)
    (k malicious_x : Z) :
  length aggregated_results = 256%nat -> 0 <= k < 256 ->
  (forall j, 0 <= j < 256 -> j <> k ->
     rd aggregated_results j < rd aggregated_results k) ->
  (value (best_results aggregated_results)).1 = k /\
  (score (best_results aggregated_results)).1 = rd aggregated_results k /\
  ((forall j, 0 <= j < 256 -> j <> k ->
      2 * rd aggregated_results j <= rd aggregated_results k) ->
   verdict (print_result malicious_x (best_results aggregated_results)) = "Success") /\
  ((exists j, 0 <= j < 256 /\ j <> k /\
      rd aggregated_results k < 2 * rd aggregated_results j) ->
   verdict (print_result malicious_x (best_results aggregated_results)) = "Unclear").
Proof.
  intros _ Hk Hmax.
  destruct (best_results_last_max aggregated_results)
    as ((Hb & _ & Hbmax & _) & (Hs & Hsne & Hsmax & _) & Hscore).
  assert ((value (best_results aggregated_results)).1 = k) as Hbest.
  { destruct (Z.eq_dec (value (best_results aggregated_results)).1 k) as [|Hne];
      [done|].
    specialize (Hbmax k Hk I). specialize (Hmax _ Hb Hne). lia. }
  split; [exact Hbest|]. split; [by rewrite Hscore, Hbest|].
  unfold print_result. cbn [verdict]. rewrite Hscore. cbn [fst snd].
  rewrite Hbest in *. split.
  - intros Hhalf. specialize (Hhalf _ Hs Hsne).
    by destruct (Z.geb_spec (rd aggregated_results k)
                   (2 * rd aggregated_results (value (best_results aggregated_results)).2));
      [|lia].
  - intros (j & Hj & Hjk & Hlt). specialize (Hsmax j Hj Hjk).
    by destruct (Z.geb_spec (rd aggregated_results k)
                   (2 * rd aggregated_results (value (best_results aggregated_results)).2));
      [lia|].
Qed.

Lemma best_results_unique_max_sample :
  (value (best_results (wr (replicate 256 1) 65 40))).1 = 65 /\
  (score (best_results (wr (replicate 256 1) 65 40))).1 = 40.
Proof.
  destruct (best_results_unique_max (wr (replicate 256 1) 65 40) 65 0) as (H1 & H2 & _).
  - reflexivity.
  - lia.
  - intros j Hj Hne. rewrite rd_wr_eq by (cbn; lia).
    rewrite rd_wr_ne by lia. rewrite rd_replicate by lia. lia.
  - split; [exact H1|]. rewrite H2. apply rd_wr_eq; cbn; lia.
Defined.

Lemma elapsed_linear step c i :
  elapsed (fun n => step * Z.of_nat n) c i = wrap64 step.
Proof.
  unfold elapsed, wrap64. rewrite <- Zminus_mod. f_equal. lia.
Qed.

Lemma decode_result_range tsc uninit malicious_x w :
  0 <= (value (transmit_and_receive tsc uninit malicious_x w).1).1 < 256 /\
  0 <= (value (transmit_and_receive tsc uninit malicious_x w).1).2 < 256 /\
  0 <= (score (transmit_and_receive tsc uninit malicious_x w).1).2
    <= (score (transmit_and_receive tsc uninit malicious_x w).1).1 /\
  (score (transmit_and_receive tsc uninit malicious_x w).1).1 <= 99.
Proof.
  rewrite transmit_and_receive_eq. cbn [fst].
  set (agg := (session_after tsc uninit 99 malicious_x w).1).
  destruct (best_results_last_max agg) as ((Hb & _ & Hbmax & _) & (Hs & _) & Hscore).
  rewrite Hscore. cbn [fst snd].
  pose proof (session_bound tsc uninit malicious_x w 99 _ ltac:(lia) Hb) as H1.
  pose proof (session_bound tsc uninit malicious_x w 99 _ ltac:(lia) Hs) as H2.
  specialize (Hbmax _ Hs I). fold agg in H1, H2.
  change (Z.of_nat 99) with 99 in *. lia.
Qed.



Lemma main_loop_in_bounds tsc uninit malicious_x w n :
  bytes (array w) ->
  same_globals w (for_up n 0 (main_step tsc uninit malicious_x) ([], w)).2 /\
  exists es,
    log (for_up n 0 (main_step tsc uninit malicious_x) ([], w)).2 = log w ++ es /\
    Forall (in_bounds w) es.
Proof.
  intros Ha.
  apply (for_up_invariant (fun s : list report * world =>
    same_globals w s.2 /\ exists es, log s.2 = log w ++ es /\ Forall (in_bounds w) es)).
  - intros j [out w'] (Hg & es & Hlog & Hes). cbn [snd] in *.
    rewrite main_step_eq. cbn [snd].
    pose proof (decode_extends tsc uninit (wrap64 (malicious_x + j)) w')
      as (Hg' & _ & Hlog').
    split; [eapply same_globals_trans; eauto|].
    eexists. split; [by rewrite Hlog', Hlog, <- app_assoc|].
    apply Forall_app. split; [exact Hes|].
    destruct Hg as (Hsize & Harr & _).
    assert (Forall (in_bounds w')
              (seqZ 0 99 ≫= fun t =>
                 trial_events w' (wrap64 (malicious_x + j)) (99 - t))) as H.
    { apply Forall_bind, Forall_seqZ. intros t Ht.
      apply trial_events_in_bounds; [lia| |by rewrite Harr].
      unfold wrap64. apply Z.mod_pos_bound. lia. }
    eapply Forall_impl; [exact H|]. intros e. by apply in_bounds_same.
  - cbn [snd]. split; [apply same_globals_refl|].
    exists []. by rewrite app_nil_r.
Qed.

(** X9.  A decode without any signal still names a winner: if no partition
    is ever read within the threshold, all counters stay 0, the tie-breaking
    of the scan makes [transmit_and_receive] return partitions 255 and 254
    with scores 0 and 0, and [main] prints "Success" (since [0 >= 2 * 0])
    and no second-best. *)
Theorem decode_without_signal (tsc : nat -> Z) (uninit : Z -> Z)
    (malicious_x : Z) (w : world) :
  (forall t j, (t < 99)%nat -> 0 <= j < 256 ->
     CACHE_HIT_THRESHOLD < elapsed tsc (ticks w + 512 * t) j) ->
  value (transmit_and_receive tsc uninit malicious_x w).1 = (255, 254) /\
  score (transmit_and_receive tsc uninit malicious_x w).1 = (0, 0) /\
  verdict (print_result malicious_x (transmit_and_receive tsc uninit malicious_x w).1)
    = "Success" /\
  second_best (print_result malicious_x (transmit_and_receive tsc uninit malicious_x w).1)
    = None.
Proof.
  intros Hmiss. rewrite transmit_and_receive_eq. cbn [fst].
  pose proof (fun i => session_flat_miss tsc uninit malicious_x w 99 i Hmiss ltac:(lia))
    as Htab.
  set (agg := (session_after tsc uninit 99 malicious_x w).1) in *.
  destruct (best_results_flat agg) as [Hv Hs].
  { intros i j Hi Hj. by rewrite (Htab i Hi), (Htab j Hj). }
  rewrite (Htab 255) in Hs by lia.
  split; [exact Hv|]. split; [exact Hs|].
  unfold print_result. cbn [verdict second_best]. by rewrite Hs.
Qed.

Lemma decode_without_signal_slow_clock :
  value (transmit_and_receive (fun n => 1000 * Z.of_nat n) (fun _ => 0) 1000
           initial_world).1 = (255, 254) /\
  verdict (print_result 1000
             (transmit_and_receive (fun n => 1000 * Z.of_nat n) (fun _ => 0) 1000
                initial_world).1) = "Success".
Proof.
  destruct (decode_without_signal (fun n => 1000 * Z.of_nat n) (fun _ => 0) 1000
              initial_world) as (H1 & _ & H2 & _).
  - intros t j _ _. rewrite elapsed_linear. by vm_compute.
  - split; [exact H1|exact H2].
Defined.

(** X10.  A decode in which every partition is read within the threshold in
    every trial saturates the table: all counters reach 99,
    [transmit_and_receive] returns partitions 255 and 254 with scores 99 and
    99, and [main] prints "Unclear" together with the second-best. *)
Theorem decode_saturated (tsc : nat -> Z) (uninit : Z -> Z)
    (malicious_x : Z) (w : world) :
  (forall t j, (t < 99)%nat -> 0 <= j < 256 ->
     elapsed tsc (ticks w + 512 * t) j <= CACHE_HIT_THRESHOLD) ->
  value (transmit_and_receive tsc uninit malicious_x w).1 = (255, 254) /\
  score (transmit_and_receive tsc uninit malicious_x w).1 = (99, 99) /\
  verdict (print_result malicious_x (transmit_and_receive tsc uninit malicious_x w).1)
    = "Unclear" /\
  second_best (print_result malicious_x (transmit_and_receive tsc uninit malicious_x w).1)
    = Some (254, 99).
Proof.
  intros Hhit. rewrite transmit_and_receive_eq. cbn [fst].
  pose proof (fun i => session_flat_hit tsc uninit malicious_x w 99 i Hhit ltac:(lia))
    as Htab.
  set (agg := (session_after tsc uninit 99 malicious_x w).1) in *.
  destruct (best_results_flat agg) as [Hv Hs].
  { intros i j Hi Hj. by rewrite (Htab i Hi), (Htab j Hj). }
  rewrite (Htab 255) in Hs by lia. change (Z.of_nat 99) with 99 in Hs.
  split; [exact Hv|]. split; [exact Hs|].
  unfold print_result. cbn [verdict second_best]. by rewrite Hs, Hv.
Qed.

Lemma decode_saturated_fast_clock :
  score (transmit_and_receive (fun n => 10 * Z.of_nat n) (fun _ => 0) 1000
           initial_world).1 = (99, 99) /\
  verdict (print_result 1000
             (transmit_and_receive (fun n => 10 * Z.of_nat n) (fun _ => 0) 1000
                initial_world).1) = "Unclear".
Proof.
  destruct (decode_saturated (fun n => 10 * Z.of_nat n) (fun _ => 0) 1000
              initial_world) as (_ & H1 & H2 & _).
  - intros t j _ _. rewrite elapsed_linear. by vm_compute.
  - split; [exact H1|exact H2].
Defined.

(** X11.  Whatever the timing, [transmit_and_receive] returns two partitions
    in [0 .. 255] and two scores with [0 <= score[1] <= score[0] <= 99]: a
    score never exceeds the number of trials. *)
Theorem decode_scores_bounded (tsc : nat -> Z) (uninit : Z -> Z)
    (malicious_x : Z) (w : world) :
  0 <= (value (transmit_and_receive tsc uninit malicious_x w).1).1 < 256 /\
  0 <= (value (transmit_and_receive tsc uninit malicious_x w).1).2 < 256 /\
  0 <= (score (transmit_and_receive tsc uninit malicious_x w).1).2
    <= (score (transmit_and_receive tsc uninit malicious_x w).1).1 /\
  (score (transmit_and_receive tsc uninit malicious_x w).1).1 <= 99.
Proof. apply decode_result_range. Qed.


(** X13.  Architectural memory safety of the whole program: for every start
    offset and length, every load of [array] that [main] performs is at an
    index in [0 .. array_size - 1] and every load or flush of [partitions]
    is at the first byte of one of its 256 partitions, provided [array]
    holds bytes. *)
Theorem main_stays_in_bounds (tsc : nat -> Z) (uninit : Z -> Z)
    (malicious_x len : Z) (w : world) :
  bytes (array w) ->
  Forall (in_bounds w) (events_since w (main tsc uninit malicious_x len w).2).
Proof.
  intros Ha. unfold main, for_lt.
  set (w1 := set_partitions _ w).
  destruct (main_loop_in_bounds tsc uninit malicious_x w1 (Z.to_nat (len - 0)) Ha)
    as (_ & es & Hlog & Hes).
  change (log w1) with (log w) in Hlog.
  rewrite (events_since_app _ _ _ Hlog). exact Hes.
Qed.

Lemma main_stays_in_bounds_initially :
  bytes (array initial_world) /\
  Forall (in_bounds initial_world)
         (events_since initial_world
            (main (sim_tsc 65) (fun _ => 0) 4096 38 initial_world).2).
Proof.
  assert (bytes (array initial_world)) as H.
  { unfold bytes. cbn. repeat (apply Forall_cons_2; [lia|]). apply Forall_nil_2. }
  split; [exact H|].
  apply (main_stays_in_bounds (sim_tsc 65) (fun _ => 0) 4096 38 initial_world H).
Defined.

(** X14.  The duration is an unsigned 64-bit difference, so [receive_bytes]
    measures it correctly even when the time-stamp counter wraps around
    between the two readings: if the second reading of partition [i] is the
    first one plus [d] modulo [2^64], the elapsed time is [d], and counter
    [i] is incremented (modulo 256) exactly when [d <= CACHE_HIT_THRESHOLD]. *)
Theorem receive_bytes_survives_counter_wrap (tsc : nat -> Z)
    (aggregated_results : list Z) (w : world) (i d : Z) :
  length aggregated_results = 256%nat -> 0 <= i < 256 -> 0 <= d < 2 ^ 64 ->
  wrap64 (tsc (ticks w + 2 * Z.to_nat i + 1)%nat)
    = wrap64 (wrap64 (tsc (ticks w + 2 * Z.to_nat i)%nat) + d) ->
  elapsed tsc (ticks w) i = d /\
  rd (receive_bytes tsc aggregated_results w).1 i
    = if d <=? CACHE_HIT_THRESHOLD
      then wrap8 (rd aggregated_results i + 1) else rd aggregated_results i.
Proof.
  intros Hlen Hi Hd Hwrap.
  assert (elapsed tsc (ticks w) i = d) as He.
  { unfold elapsed. rewrite Hwrap. unfold wrap64.
    rewrite Zminus_mod_idemp_l.
    replace (tsc (ticks w + 2 * Z.to_nat i)%nat mod 2 ^ 64 + d
             - tsc (ticks w + 2 * Z.to_nat i)%nat mod 2 ^ 64) with d by lia.
    by apply Z.mod_small. }
  split; [exact He|].
  destruct (receive_bytes_table tsc aggregated_results w Hlen) as [_ Hrd].
  by rewrite (Hrd i Hi), He.
Qed.

Lemma receive_bytes_survives_counter_wrap_sample :
  elapsed (fun n => if Nat.even n then 2 ^ 64 - 5 else 2 ^ 64 + 15)
          (ticks initial_world) 3 = 20 /\
  rd (receive_bytes (fun n => if Nat.even n then 2 ^ 64 - 5 else 2 ^ 64 + 15)
        (replicate 256 0) initial_world).1 3
    = wrap8 (rd (replicate 256 0) 3 + 1).
Proof.
  apply (receive_bytes_survives_counter_wrap
           (fun n => if Nat.even n then 2 ^ 64 - 5 else 2 ^ 64 + 15)
           (replicate 256 0) initial_world 3 20);
    [reflexivity|lia|lia|by vm_compute].
Defined.
